(** * gmail-prom-exporter-rs: a shallow embedding of src/auth.rs, src/mail.rs
    and the FetchRecentMail loop of src/main.rs.

    Modelling choices.
    - Response bodies are [serde_json::Value]s ([Json]); numbers are the
      integral ones (floats never take part in the comparisons of the code).
    - The provider is a script: the API answers the requests sent to it in
      order from [api], the token endpoint answers from [tokens]. Every request
      sent is appended to [sent]. A request sent when the script has no answer
      left is a transport error, which the code turns into a panic through
      [.send().await.unwrap()].
    - A panic ([unwrap], [expect]) is [Panic s] in the stateful code, with the
      state reached at the panic, and [None] in the pure code.
    - Rust's [to_lowercase] is modelled on ASCII strings.
    - [mailparse::addrparse] and [chrono::Utc.timestamp_millis_opt] are
      external crates: the development is parametric in both. *)

From Stdlib Require Import String Ascii ZArith List Bool Lia.
From stdpp Require Import base gmap strings list.

Local Open Scope string_scope.
Local Open Scope list_scope.
Local Open Scope Z_scope.

(** ** serde_json::Value *)

Local Set Warnings "-register-all".

Inductive Json : Type :=
| JNull
| JBool (b : bool)
| JNum (n : Z)
| JStr (s : string)
| JArr (xs : list Json)
| JObj (fs : list (string * Json)).

(** Field lookup in an object's member list. *)
Fixpoint assoc {A} (k : string) (fs : list (string * A)) : option A :=
  match fs with
  | [] => None
  | (k', v) :: fs' => if String.eqb k k' then Some v else assoc k fs'
  end.

(** [json[key]]: [Value::Null] when the value is no object or has no such
    member. *)
Definition index (v : Json) (k : string) : Json :=
  match v with
  | JObj fs => match assoc k fs with Some x => x | None => JNull end
  | _ => JNull
  end.

(** [value == n] for an integer [n]: only an integral number equal to [n]. *)
Definition json_eq_int (v : Json) (n : Z) : bool :=
  match v with JNum m => Z.eqb m n | _ => false end.

Definition as_str (v : Json) : option string :=
  match v with JStr s => Some s | _ => None end.

Definition as_array (v : Json) : option (list Json) :=
  match v with JArr xs => Some xs | _ => None end.

(** ** serde deserialisation of the response types ([from_value]) *)

Fixpoint traverse {A B} (f : A -> option B) (xs : list A) : option (list B) :=
  match xs with
  | [] => Some []
  | x :: xs' =>
      match f x with
      | Some y => match traverse f xs' with Some ys => Some (y :: ys) | None => None end
      | None => None
      end
  end.

Definition de_string (v : Json) : option string := as_str v.

Definition de_u64 (v : Json) : option Z :=
  match v with
  | JNum n => if (0 <=? n) && (n <? 2 ^ 64) then Some n else None
  | _ => None
  end.

Definition de_vec {A} (f : Json -> option A) (v : Json) : option (list A) :=
  match v with JArr xs => traverse f xs | _ => None end.

(** A required field: missing is an error. *)
Definition de_field {A} (fs : list (string * Json)) (k : string)
  (f : Json -> option A) : option A :=
  match assoc k fs with Some v => f v | None => None end.

(** An [Option<T>] field: missing or [null] is [None]. *)
Definition de_opt_field {A} (fs : list (string * Json)) (k : string)
  (f : Json -> option A) : option (option A) :=
  match assoc k fs with
  | None | Some JNull => Some None
  | Some v => match f v with Some x => Some (Some x) | None => None end
  end.

Record MinimalMessage := {
  mm_id : string;
  mm_thread_id : string }.

Definition de_MinimalMessage (v : Json) : option MinimalMessage :=
  match v with
  | JObj fs =>
      match de_field fs "id" de_string, de_field fs "threadId" de_string with
      | Some i, Some t => Some {| mm_id := i; mm_thread_id := t |}
      | _, _ => None
      end
  | _ => None
  end.

Record MessageHeader := {
  mh_name : string;
  mh_value : string }.

Definition de_MessageHeader (v : Json) : option MessageHeader :=
  match v with
  | JObj fs =>
      match de_field fs "name" de_string, de_field fs "value" de_string with
      | Some n, Some x => Some {| mh_name := n; mh_value := x |}
      | _, _ => None
      end
  | _ => None
  end.

Record MessagePart := {
  mp_part_id : string;
  mp_mime_type : string;
  mp_filename : string;
  mp_headers : list MessageHeader }.

Definition de_MessagePart (v : Json) : option MessagePart :=
  match v with
  | JObj fs =>
      match de_field fs "partId" de_string, de_field fs "mimeType" de_string,
            de_field fs "filename" de_string,
            de_field fs "headers" (de_vec de_MessageHeader) with
      | Some p, Some m, Some f, Some hs =>
          Some {| mp_part_id := p; mp_mime_type := m; mp_filename := f;
                  mp_headers := hs |}
      | _, _, _, _ => None
      end
  | _ => None
  end.

Record MessageDetails := {
  md_id : string;
  md_thread_id : string;
  md_label_ids : list string;
  md_snippet : string;
  md_history_id : string;
  md_internal_date : string;
  md_payload : MessagePart;
  md_size_estimate : Z }.

Definition de_MessageDetails (v : Json) : option MessageDetails :=
  match v with
  | JObj fs =>
      match de_field fs "id" de_string, de_field fs "threadId" de_string,
            de_field fs "labelIds" (de_vec de_string),
            de_field fs "snippet" de_string,
            de_field fs "historyId" de_string,
            de_field fs "internalDate" de_string,
            de_field fs "payload" de_MessagePart,
            de_field fs "sizeEstimate" de_u64 with
      | Some i, Some t, Some l, Some sn, Some h, Some d, Some p, Some z =>
          Some {| md_id := i; md_thread_id := t; md_label_ids := l;
                  md_snippet := sn; md_history_id := h; md_internal_date := d;
                  md_payload := p; md_size_estimate := z |}
      | _, _, _, _, _, _, _, _ => None
      end
  | _ => None
  end.

Record MessageAdded := {
  ma_message : MinimalMessage }.

Definition de_MessageAdded (v : Json) : option MessageAdded :=
  match v with
  | JObj fs =>
      match de_field fs "message" de_MinimalMessage with
      | Some m => Some {| ma_message := m |}
      | None => None
      end
  | _ => None
  end.

Record History := {
  h_id : string;
  h_messages_added : option (list MessageAdded) }.

Definition de_History (v : Json) : option History :=
  match v with
  | JObj fs =>
      match de_field fs "id" de_string,
            de_opt_field fs "messagesAdded" (de_vec de_MessageAdded) with
      | Some i, Some ma => Some {| h_id := i; h_messages_added := ma |}
      | _, _ => None
      end
  | _ => None
  end.

Record HistoryResponse := {
  hr_history : option (list History);
  hr_next_page_token : option string;
  hr_history_id : string }.

Definition de_HistoryResponse (v : Json) : option HistoryResponse :=
  match v with
  | JObj fs =>
      match de_opt_field fs "history" (de_vec de_History),
            de_opt_field fs "nextPageToken" de_string,
            de_field fs "historyId" de_string with
      | Some h, Some n, Some i =>
          Some {| hr_history := h; hr_next_page_token := n; hr_history_id := i |}
      | _, _, _ => None
      end
  | _ => None
  end.

(** ** Strings: [to_lowercase], [split("@")] and [str::parse::<i64>] *)

Definition ascii_lower (c : ascii) : ascii :=
  let n := nat_of_ascii c in
  if (65 <=? n)%nat && (n <=? 90)%nat then ascii_of_nat (n + 32)%nat else c.

Fixpoint to_lowercase (s : string) : string :=
  match s with
  | EmptyString => EmptyString
  | String c s' => String (ascii_lower c) (to_lowercase s')
  end.

(** [s.split(c)] for a one-character pattern: the pieces between the
    occurrences of [c], always at least one. *)
Fixpoint split_char (c : ascii) (s : string) : list string :=
  match s with
  | EmptyString => [EmptyString]
  | String a s' =>
      let pieces := split_char c s' in
      if Ascii.eqb a c then EmptyString :: pieces
      else match pieces with
           | p :: ps => String a p :: ps
           | [] => [String a EmptyString]
           end
  end.

(** [Iterator::last]. *)
Fixpoint iter_last {A} (xs : list A) : option A :=
  match xs with
  | [] => None
  | [x] => Some x
  | _ :: xs' => iter_last xs'
  end.

Definition is_digit (c : ascii) : bool :=
  let n := nat_of_ascii c in (48 <=? n)%nat && (n <=? 57)%nat.

Fixpoint digits_value (acc : Z) (s : string) : option Z :=
  match s with
  | EmptyString => Some acc
  | String c s' =>
      if is_digit c then digits_value (acc * 10 + Z.of_nat (nat_of_ascii c - 48)%nat) s'
      else None
  end.

(** [<i64 as FromStr>::from_str]: an optional sign, then one or more decimal
    digits, the value within the range of [i64]. *)
Definition parse_i64 (s : string) : option Z :=
  let '(neg, ds) :=
    match s with
    | String "-" r => (true, r)
    | String "+" r => (false, r)
    | _ => (false, s)
    end in
  match ds with
  | EmptyString => None
  | _ =>
      match digits_value 0 ds with
      | None => None
      | Some n =>
          let v := if neg then - n else n in
          if (- 2 ^ 63 <=? v) && (v <? 2 ^ 63) then Some v else None
      end
  end.

(** ** mailparse's address lists and the [ParseForMetrics] trait *)

Record SingleInfo := {
  display_name : option string;
  addr : string }.

Record GroupInfo := {
  group_name : string;
  addrs : list SingleInfo }.

Inductive MailAddr :=
| Group (g : GroupInfo)
| Single (s : SingleInfo).

Definition MailAddrList := list MailAddr.

Fixpoint first_single_mailer (l : MailAddrList) : option SingleInfo :=
  match l with
  | [] => None
  | Single x :: _ => Some x
  | Group _ :: l' => first_single_mailer l'
  end.

Definition first_address (l : MailAddrList) : option string :=
  match first_single_mailer l with
  | Some first => Some (to_lowercase (addr first))
  | None => None
  end.

(** The result of [first_domain] under the panic of its [unwrap]: the outer
    [None] is the panic. *)
Definition first_domain (l : MailAddrList) : option (option string) :=
  match first_address l with
  | Some first =>
      match iter_last (split_char "@" first) with
      | Some d => Some (Some (to_lowercase d))
      | None => None
      end
  | None => Some None
  end.

Definition first_display_name (l : MailAddrList) : option string :=
  match first_single_mailer l with
  | Some first => display_name first
  | None => None
  end.

(** ** GoogleAuth and the state of a run *)

Record GoogleAuth := {
  client_id : string;
  client_secret : string;
  access_token : option string;
  refresh_token : option string }.

Definition is_authenticated (g : GoogleAuth) : bool :=
  match access_token g with Some _ => true | None => false end.

(** A request as the provider sees it. *)
Inductive Sent :=
| ApiGet (url : string) (bearer : string)
| TokenPost (form : list (string * string)).

(** A [counter!(name, 1, labels)] call. *)
Definition CounterInc := (string * list (string * string))%type.

Record St := {
  client : GoogleAuth;
  api : list Json;
  tokens : list Json;
  sent : list Sent;
  counters : list CounterInc }.

Definition set_client (g : GoogleAuth) (s : St) : St :=
  {| client := g; api := api s; tokens := tokens s; sent := sent s;
     counters := counters s |}.
Definition set_api (a : list Json) (s : St) : St :=
  {| client := client s; api := a; tokens := tokens s; sent := sent s;
     counters := counters s |}.
Definition set_tokens (t : list Json) (s : St) : St :=
  {| client := client s; api := api s; tokens := t; sent := sent s;
     counters := counters s |}.
Definition log_sent (r : Sent) (s : St) : St :=
  {| client := client s; api := api s; tokens := tokens s; sent := sent s ++ [r];
     counters := counters s |}.
Definition count (c : CounterInc) (s : St) : St :=
  {| client := client s; api := api s; tokens := tokens s; sent := sent s;
     counters := counters s ++ [c] |}.

Inductive Outcome (A : Type) :=
| Ret (a : A) (s : St)
| Panic (s : St).
Arguments Ret {A} a s.
Arguments Panic {A} s.

Definition M (A : Type) := St -> Outcome A.

Definition bindM {A B} (c : M A) (k : A -> M B) : M B :=
  fun s => match c s with Ret a s' => k a s' | Panic s' => Panic s' end.

Notation "x <<- c ;; k" := (bindM c (fun x => k))
  (at level 65, c at next level, right associativity).

(** [opt.unwrap()] in stateful code. *)
Definition unwrapM {A} (o : option A) : M A :=
  fun s => match o with Some a => Ret a s | None => Panic s end.

(** ** GoogleAuth::do_refresh and GoogleAuth::needs_refresh *)

Definition do_refresh : M unit := fun s =>
  let g := client s in
  match refresh_token g with
  | None => Panic s  (* .expect("refresh token required ...") *)
  | Some rt =>
      let s1 := log_sent (TokenPost [("client_id", client_id g);
                                     ("client_secret", client_secret g);
                                     ("refresh_token", rt);
                                     ("grant_type", "refresh_token")]) s in
      match tokens s1 with
      | [] => Panic s1  (* .send().await.unwrap() *)
      | r :: rest =>
          let s2 := set_tokens rest s1 in
          match as_str (index r "access_token") with
          | None => Panic s2
          | Some at_ =>
              Ret tt (set_client {| client_id := client_id g;
                                    client_secret := client_secret g;
                                    access_token := Some at_;
                                    refresh_token := refresh_token g |} s2)
          end
      end
  end.

Definition needs_refresh (j : Json) : bool :=
  json_eq_int (index (index j "error") "code") 401.

(** The request loop written out in [load_labels], [fetch_mail],
    [fetch_mail_details] and [fetch_history]:
    [loop { send with the current bearer; if needs_refresh { do_refresh } else
    { break json } }]. [pending] is the API's remaining script, one answer
    consumed per pass. *)
Fixpoint auth_loop (url : string) (pending : list Json) : M Json := fun s =>
  match access_token (client s) with
  | None => Panic s  (* access_token.as_ref().unwrap() *)
  | Some tok =>
      let s1 := log_sent (ApiGet url tok) s in
      match pending with
      | [] => Panic s1
      | j :: rest =>
          let s2 := set_api rest s1 in
          if needs_refresh j then
            match do_refresh s2 with
            | Ret _ s3 => auth_loop url rest s3
            | Panic s3 => Panic s3
            end
          else Ret j s2
      end
  end.

Definition auth_get (url : string) : M Json := fun s => auth_loop url (api s) s.

Definition retM {A} (a : A) : M A := fun s => Ret a s.

Definition unwrap_or {A} (o : option A) (d : A) : A :=
  match o with Some a => a | None => d end.

(** ** Endpoints *)

Definition labels_url : string :=
  "https://www.googleapis.com/gmail/v1/users/me/labels".
Definition messages_url : string :=
  "https://www.googleapis.com/gmail/v1/users/me/messages".
Definition message_url (id : string) : string :=
  "https://www.googleapis.com/gmail/v1/users/me/messages/" +:+ id.
Definition history_url (starting_from : string) (page_token : option string) : string :=
  "https://gmail.googleapis.com/gmail/v1/users/me/history?startHistoryId="
    +:+ starting_from
    +:+ match page_token with None => "" | Some t => "&pageToken=" +:+ t end.

Record MessagesList := {
  ml_messages : list MinimalMessage;
  ml_next_page_token : option string;
  ml_result_size_estimate : Z }.

Definition de_MessagesList (v : Json) : option MessagesList :=
  match v with
  | JObj fs =>
      match de_field fs "messages" (de_vec de_MinimalMessage),
            de_opt_field fs "nextPageToken" de_string,
            de_field fs "resultSizeEstimate" de_u64 with
      | Some m, Some n, Some r =>
          Some {| ml_messages := m; ml_next_page_token := n;
                  ml_result_size_estimate := r |}
      | _, _, _ => None
      end
  | _ => None
  end.

(** ** MailClient::load_labels, fetch_mail and fetch_history *)

Fixpoint insert_labels (ls : list Json) (m : gmap string string)
  : option (gmap string string) :=
  match ls with
  | [] => Some m
  | label :: ls' =>
      match as_str (index label "id"), as_str (index label "name") with
      | Some i, Some n => insert_labels ls' (<[i := n]> m)
      | _, _ => None
      end
  end.

Definition load_labels : M (gmap string string) :=
  res <<- auth_get labels_url ;;
  ls <<- unwrapM (as_array (index res "labels")) ;;
  unwrapM (insert_labels ls ∅).

Definition fetch_mail : M (list MinimalMessage) :=
  res <<- auth_get messages_url ;;
  ml <<- unwrapM (de_MessagesList res) ;;
  retM (ml_messages ml).

(** The references a history page contributes: the [messagesAdded] entries
    of its history records, in order. *)
Definition history_refs (h : HistoryResponse) : list MinimalMessage :=
  match hr_history h with
  | Some hs =>
      flat_map (fun e => match h_messages_added e with
                         | Some ms => map ma_message ms
                         | None => []
                         end) hs
  | None => []
  end.

(** The outer [loop] of [fetch_history]. Each pass consumes at least one
    answer of the API script, so the fuel [S (length (api s))] given by
    [fetch_history] is never the reason it stops. *)
Fixpoint history_loop (fuel : nat) (starting_from : string)
  (page_token : option string) (history_list : list MinimalMessage)
  : M (list MinimalMessage) :=
  match fuel with
  | O => fun s => Panic s
  | S fuel' =>
      res <<- auth_get (history_url starting_from page_token) ;;
      history <<- unwrapM (de_HistoryResponse res) ;;
      let history_list' := history_list ++ history_refs history in
      match hr_next_page_token history with
      | None => retM history_list'
      | Some t => history_loop fuel' starting_from (Some t) history_list'
      end
  end.

Definition fetch_history (starting_from : string) : M (list MinimalMessage) :=
  fun s => history_loop (S (length (api s))) starting_from None [] s.

(** ** Enrichment and the watch loop, over the external crates *)

Section Enrich.

Variable DateTime : Type.
(** [mailparse::addrparse]; [None] is its [Err]. *)
Variable addrparse : string -> option MailAddrList.
(** [chrono::Utc.timestamp_millis_opt(ms).latest()]. *)
Variable timestamp_millis_opt : Z -> option DateTime.

Record UsableMessageDetails := {
  u_id : string;
  u_thread_id : string;
  u_history_id : string;
  u_labels : list string;
  u_internal_date : DateTime;
  u_from : MailAddrList;
  u_to : MailAddrList;
  u_subject : string }.

(** The header scan of [UsableMessageDetails::from]: (from, to, subject),
    the last header of each name winning. *)
Definition header_step (acc : string * string * string) (h : MessageHeader)
  : string * string * string :=
  let '(from, to, subject) := acc in
  if String.eqb (mh_name h) "From" then (mh_value h, to, subject)
  else if String.eqb (mh_name h) "To" then (from, mh_value h, subject)
  else if String.eqb (mh_name h) "Subject" then (from, to, mh_value h)
  else acc.

Definition collect_headers (hs : list MessageHeader) : string * string * string :=
  fold_left header_step hs ("", "", "").

Definition resolve_label (labels : gmap string string) (x : string) : string :=
  match labels !! x with Some n => n | None => x end.

(** [UsableMessageDetails::from]; [None] is a panic of one of its
    [unwrap]/[expect]. *)
Definition usable_from (message : MessageDetails) (labels : gmap string string)
  : option UsableMessageDetails :=
  let '(from, to, subject) := collect_headers (mp_headers (md_payload message)) in
  match addrparse to with
  | None => None
  | Some to_parsed =>
      match addrparse from with
      | None => None
      | Some from_parsed =>
          match parse_i64 (md_internal_date message) with
          | None => None
          | Some ms =>
              match timestamp_millis_opt ms with
              | None => None
              | Some dt =>
                  Some {| u_id := md_id message;
                          u_thread_id := md_thread_id message;
                          u_history_id := md_history_id message;
                          u_labels := map (resolve_label labels) (md_label_ids message);
                          u_internal_date := dt;
                          u_from := from_parsed;
                          u_to := to_parsed;
                          u_subject := subject |}
              end
          end
      end
  end.

(** [UsableMessageDetails::as_labels]; [None] is a panic inside
    [first_domain]. *)
Definition as_labels (u : UsableMessageDetails) : option (list (string * string)) :=
  match first_domain (u_to u), first_domain (u_to u) with
  | Some from_domain, Some to_domain =>
      Some ([("from", unwrap_or (first_address (u_from u)) "unknown");
             ("to", unwrap_or (first_address (u_to u)) "unknown");
             ("from_domain", unwrap_or from_domain "unknown");
             ("to_domain", unwrap_or to_domain "unknown")]
            ++ map (fun label => ("label_" +:+ label, "true")) (u_labels u))
  | _, _ => None
  end.

Definition is_not_found (res : Json) : bool :=
  json_eq_int (index (index res "error") "code") 404.

(** The [for message in listing] loop of [fetch_mail_details]. *)
Fixpoint details_loop (listing : list MinimalMessage) (labels : gmap string string)
  (results : list UsableMessageDetails) : M (list UsableMessageDetails) :=
  match listing with
  | [] => retM results
  | message :: listing' =>
      res <<- auth_get (message_url (mm_id message)) ;;
      if is_not_found res then details_loop listing' labels results
      else
        json <<- unwrapM (de_MessageDetails res) ;;
        usable <<- unwrapM (usable_from json labels) ;;
        details_loop listing' labels (results ++ [usable])
  end.

Definition fetch_mail_details (listing : list MinimalMessage)
  (labels : gmap string string) : M (list UsableMessageDetails) :=
  details_loop listing labels [].

(** [for message in mail_details { counter!("email_received", 1, ...) }] *)
Fixpoint emit_received (mail_details : list UsableMessageDetails) : M unit :=
  match mail_details with
  | [] => retM tt
  | message :: rest =>
      ls <<- unwrapM (as_labels message) ;;
      _ <<- (fun s => Ret tt (count ("email_received", ls) s)) ;;
      emit_received rest
  end.

(** One pass of the [loop] of [Commands::FetchRecentMail] (the sleep is no
    effect of the model): the new [starting_from]. *)
Definition watch_cycle (labels : gmap string string) (starting_from : string)
  : M string :=
  history <<- fetch_history starting_from ;;
  mail_details <<- fetch_mail_details history labels ;;
  match mail_details with
  | [] => retM starting_from
  | _ :: _ =>
      last <<- unwrapM (iter_last mail_details) ;;
      _ <<- emit_received mail_details ;;
      retM (u_history_id last)
  end.

End Enrich.

(** ** Serialisation of the response types, for building provider answers *)

Definition enc_MinimalMessage (m : MinimalMessage) : Json :=
  JObj [("id", JStr (mm_id m)); ("threadId", JStr (mm_thread_id m))].

Definition enc_MessageAdded (a : MessageAdded) : Json :=
  JObj [("message", enc_MinimalMessage (ma_message a))].

Definition enc_History (h : History) : Json :=
  JObj (("id", JStr (h_id h)) ::
        match h_messages_added h with
        | Some ms => [("messagesAdded", JArr (map enc_MessageAdded ms))]
        | None => []
        end).

Definition enc_HistoryResponse (h : HistoryResponse) : Json :=
  JObj (match hr_history h with
        | Some hs => [("history", JArr (map enc_History hs))]
        | None => []
        end ++
        match hr_next_page_token h with
        | Some t => [("nextPageToken", JStr t)]
        | None => []
        end ++
        [("historyId", JStr (hr_history_id h))]).

(** An error envelope as the provider sends it, with its code. *)
Definition error_envelope (code : Z) : Json :=
  JObj [("error", JObj [("code", JNum code); ("message", JStr "error")])].

Definition is_api_get (r : Sent) : bool :=
  match r with ApiGet _ _ => true | TokenPost _ => false end.

Definition api_requests (l : list Sent) : nat := length (List.filter is_api_get l).
Definition token_requests (l : list Sent) : nat :=
  length (List.filter (fun r => negb (is_api_get r)) l).

(** ** Vocabulary of the claims *)

Fixpoint has_char (c : ascii) (s : string) : bool :=
  match s with
  | EmptyString => false
  | String a s' => Ascii.eqb a c || has_char c s'
  end.

(** The text after the last occurrence of [c]; all of [s] when there is
    none. *)
Fixpoint after_last (c : ascii) (s : string) : string :=
  match s with
  | EmptyString => EmptyString
  | String a s' =>
      if has_char c s' then after_last c s'
      else if Ascii.eqb a c then s' else s
  end.

(** History pages linked by [nextPageToken]: every page but the last carries
    one, the last does not. *)
Fixpoint chained (pages : list HistoryResponse) : bool :=
  match pages with
  | [] => false
  | [p] => match hr_next_page_token p with None => true | Some _ => false end
  | p :: ps => match hr_next_page_token p with Some _ => chained ps | None => false end
  end.

(** The page tokens the pages are requested with: none for the first, then
    the [nextPageToken] of the page before. *)
Definition page_tokens (pages : list HistoryResponse) : list (option string) :=
  None :: map hr_next_page_token (removelast pages).

Definition counter_count (name : string) (l : list CounterInc) : nat :=
  length (List.filter (fun c => String.eqb (fst c) name) l).

(** ** Concrete external crates, for evaluating the model *)

(** [addrparse] on a bare address list of at most one address, as mailparse
    parses it: the empty header is the empty list. *)
Definition addrparse_bare (s : string) : option MailAddrList :=
  if String.eqb s "" then Some []
  else Some [Single {| display_name := None; addr := s |}].

(** [timestamp_millis_opt] with the instant represented by its milliseconds. *)
Definition millis_in_range (ms : Z) : option Z :=
  if Z.abs ms <=? 8210298412799999 then Some ms else None.

Definition auth0 : GoogleAuth :=
  {| client_id := "cid"; client_secret := "csecret";
     access_token := Some "a0"; refresh_token := Some "r0" |}.

Definition start (a : list Json) (t : list Json) : St :=
  {| client := auth0; api := a; tokens := t; sent := []; counters := [] |}.

Definition token_answer (at_ : string) : Json := JObj [("access_token", JStr at_)].



(** ** Concrete scenarios *)

Definition auth_no_refresh : GoogleAuth :=
  {| client_id := "cid"; client_secret := "csecret";
     access_token := Some "a0"; refresh_token := None |}.

Definition c1_state : St :=
  start [error_envelope 401; error_envelope 401; JObj [("labels", JArr [])]]
        [token_answer "a1"; token_answer "a2"].

Definition page1 : HistoryResponse :=
  {| hr_history := Some [{| h_id := "101";
                            h_messages_added := Some [{| ma_message := {| mm_id := "m1"; mm_thread_id := "t1" |} |}] |}];
     hr_next_page_token := Some "p2"; hr_history_id := "150" |}.

Definition page2 : HistoryResponse :=
  {| hr_history := Some [{| h_id := "102"; h_messages_added := None |};
                         {| h_id := "103";
                            h_messages_added := Some [{| ma_message := {| mm_id := "m2"; mm_thread_id := "t1" |} |}] |}];
     hr_next_page_token := None; hr_history_id := "150" |}.

Definition enc_MessageHeader (h : MessageHeader) : Json :=
  JObj [("name", JStr (mh_name h)); ("value", JStr (mh_value h))].

Definition enc_MessagePart (p : MessagePart) : Json :=
  JObj [("partId", JStr (mp_part_id p)); ("mimeType", JStr (mp_mime_type p));
        ("filename", JStr (mp_filename p));
        ("headers", JArr (map enc_MessageHeader (mp_headers p)))].

Definition enc_MessageDetails (m : MessageDetails) : Json :=
  JObj [("id", JStr (md_id m)); ("threadId", JStr (md_thread_id m));
        ("labelIds", JArr (map JStr (md_label_ids m)));
        ("snippet", JStr (md_snippet m)); ("historyId", JStr (md_history_id m));
        ("internalDate", JStr (md_internal_date m));
        ("payload", enc_MessagePart (md_payload m));
        ("sizeEstimate", JNum (md_size_estimate m))].

Definition ref (id : string) : MinimalMessage := {| mm_id := id; mm_thread_id := "t1" |}.

(** A message-detail payload with the given id, historyId, internalDate,
    From, To and label ids. *)
Definition detail (id hist date from to : string) (label_ids : list string)
  : MessageDetails :=
  {| md_id := id; md_thread_id := "t1"; md_label_ids := label_ids;
     md_snippet := ""; md_history_id := hist; md_internal_date := date;
     md_payload := {| mp_part_id := ""; mp_mime_type := "text/plain";
                      mp_filename := "";
                      mp_headers := [{| mh_name := "From"; mh_value := from |};
                                     {| mh_name := "To"; mh_value := to |};
                                     {| mh_name := "Subject"; mh_value := "hi" |}] |};
     md_size_estimate := 100 |}.

(** A single history page adding the given references. *)
Definition page_adding (refs : list MinimalMessage) (hist : string) : HistoryResponse :=
  {| hr_history := Some [{| h_id := hist;
                            h_messages_added := Some (map (fun m => {| ma_message := m |}) refs) |}];
     hr_next_page_token := None; hr_history_id := hist |}.

Definition empty_page (hist : string) : HistoryResponse :=
  {| hr_history := None; hr_next_page_token := None; hr_history_id := hist |}.

Definition catalog : gmap string string := <["INBOX" := "Inbox"]> ∅.

Definition c6_state : St :=
  start [error_envelope 404;
         enc_MessageDetails (detail "m2" "160" "1700000000000" "alice@example.com"
                                    "Bob@Example.org" ["INBOX"])] [].

Definition md7 : MessageDetails :=
  detail "m3" "170" "1700000000000" "alice@example.com" "bob@example.org"
         ["INBOX"; "Label_7"].

Definition u7 : UsableMessageDetails Z :=
  {| u_id := "m3"; u_thread_id := "t1"; u_history_id := "170";
     u_labels := ["Inbox"; "Label_7"]; u_internal_date := 1700000000000;
     u_from := [Single {| display_name := None; addr := "alice@example.com" |}];
     u_to := [Single {| display_name := None; addr := "bob@example.org" |}];
     u_subject := "hi" |}.

Definition md8 : MessageDetails :=
  detail "m4" "180" "yesterday" "alice@example.com" "bob@example.org" ["INBOX"].

Definition c8_state : St := start [enc_MessageDetails md8] [].

Definition c3_state : St :=
  start [enc_HistoryResponse (page_adding [ref "m1"] "501");
         enc_MessageDetails (detail "m1" "100" "1700000000000" "alice@example.com"
                                    "bob@example.org" ["INBOX"])] [].

Definition c4_state : St := start [enc_HistoryResponse (empty_page "500")] [].

(** A computation that leaves the metric counters as they are, whether it
    returns or panics. *)
Definition keeps_counters {A} (c : M A) : Prop :=
  forall s, match c s with Ret _ s' | Panic s' => counters s' = counters s end.

(** ** Further code and vocabulary *)

(** The token exchange of [GoogleAuth::handle_callback_url] (auth.rs lines
    102-134), from the authorization code it extracts from the callback URL
    on; the parsing of the URL by the url crate is not modelled. *)
Definition handle_callback_code (code : string) : M unit := fun s =>
  let g := client s in
  let s1 := log_sent (TokenPost [("code", code); ("client_id", client_id g);
                                 ("client_secret", client_secret g);
                                 ("redirect_uri", "http://127.0.0.1:8080");
                                 ("grant_type", "authorization_code")]) s in
  match tokens s1 with
  | [] => Panic s1
  | r :: rest =>
      let s2 := set_tokens rest s1 in
      match as_str (index r "access_token") with
      | None => Panic s2
      | Some at_ =>
          let g2 := {| client_id := client_id g; client_secret := client_secret g;
                       access_token := Some at_; refresh_token := refresh_token g |} in
          let s3 := set_client g2 s2 in
          match as_str (index r "refresh_token") with
          | None => Panic s3
          | Some rt =>
              Ret tt (set_client {| client_id := client_id g;
                                    client_secret := client_secret g;
                                    access_token := Some at_;
                                    refresh_token := Some rt |} s3)
          end
      end
  end.

(** The value of the last header called [name], if any. *)
Definition last_header (name : string) (hs : list MessageHeader) : option string :=
  option_map mh_value (iter_last (List.filter (fun h => String.eqb (mh_name h) name) hs)).

(** The (id, name) pair of a label object, when both are strings. *)
Definition label_entry (label : Json) : option (string * string) :=
  match as_str (index label "id"), as_str (index label "name") with
  | Some i, Some n => Some (i, n)
  | _, _ => None
  end.

(** What one detail answer contributes to [fetch_mail_details]: nothing for
    a not-found envelope, the enriched event otherwise; [None] when the loop
    panics on it. *)
Definition enrich_one (D : Type) (ap : string -> option MailAddrList)
  (tm : Z -> option D) (labels : gmap string string) (res : Json)
  : option (list (UsableMessageDetails D)) :=
  if is_not_found res then Some []
  else match de_MessageDetails res with
       | Some md => match usable_from D ap tm md labels with
                    | Some u => Some [u]
                    | None => None
                    end
       | None => None
       end.

(** The [Commands::Backfill] branch of [main]: the history id it prints,
    that of the first enriched message, if any. *)
Definition backfill (D : Type) (ap : string -> option MailAddrList)
  (tm : Z -> option D) : M (option string) :=
  labels <<- load_labels ;;
  mail_listing <<- fetch_mail ;;
  mail_details <<- fetch_mail_details D ap tm mail_listing labels ;;
  retM (option_map (u_history_id D) (hd_error mail_details)).

Definition labels_page : Json :=
  JObj [("labels", JArr [JObj [("id", JStr "L1"); ("name", JStr "Work")];
                         JObj [("id", JStr "INBOX"); ("name", JStr "Inbox")];
                         JObj [("id", JStr "L1"); ("name", JStr "Work2")]])].

Definition messages_page : Json :=
  JObj [("messages", JArr [enc_MinimalMessage (ref "m1"); enc_MinimalMessage (ref "m2")]);
        ("nextPageToken", JStr "p2"); ("resultSizeEstimate", JNum 201)].

(** * Properties *)

Local Open Scope nat_scope.

(** ** Evaluations of the model *)

Example ascii_lower_ex : to_lowercase "Bob@Example.COM" = "bob@example.com".
Proof. reflexivity. Qed.

Example split_ex : split_char "@" "a@b@c" = ["a"; "b"; "c"].
Proof. reflexivity. Qed.

Example parse_i64_ex :
  (parse_i64 "1700000000000", parse_i64 "-5", parse_i64 "+", parse_i64 "12x",
   parse_i64 "9223372036854775808") =
  (Some 1700000000000%Z, Some (-5)%Z, None, None, None).
Proof. reflexivity. Qed.

Example load_labels_ex :
  match load_labels (start [JObj [("labels", JArr [JObj [("id", JStr "L1");
                                                             ("name", JStr "Work")]])]] []) with
  | Ret m _ => m !! "L1" = Some "Work"
  | Panic _ => False
  end.
Proof. vm_compute. reflexivity. Qed.

(** ** Request bookkeeping *)

Lemma api_requests_snoc (l : list Sent) (r : Sent) :
  api_requests (l ++ [r]) = api_requests l + (if is_api_get r then 1 else 0).
Proof.
  unfold api_requests. rewrite List.filter_app, length_app.
  simpl. destruct (is_api_get r); simpl; lia.
Qed.

Lemma token_requests_snoc (l : list Sent) (r : Sent) :
  token_requests (l ++ [r]) = token_requests l + (if is_api_get r then 0 else 1).
Proof.
  unfold token_requests. rewrite List.filter_app, length_app.
  simpl. destruct (is_api_get r); simpl; lia.
Qed.

(** ** C9: the frame of [do_refresh] *)

(** C9. Without a refresh token [do_refresh] fails (it panics on its
    [expect]) with the state untouched; a successful refresh sets
    [access_token] and leaves [client_id], [client_secret] and
    [refresh_token] as they were; any failed refresh leaves the credential
    unchanged. *)
Theorem do_refresh_replaces_only_access_token (s : St) :
  (refresh_token (client s) = None -> do_refresh s = Panic s) /\
  match do_refresh s with
  | Ret _ s' =>
      refresh_token (client s) <> None /\
      exists at_,
        client_id (client s') = client_id (client s) /\
        client_secret (client s') = client_secret (client s) /\
        refresh_token (client s') = refresh_token (client s) /\
        access_token (client s') = Some at_
  | Panic s' => client s' = client s
  end.
Proof.
  unfold do_refresh. cbv zeta. split.
  - intros H. rewrite H. reflexivity.
  - destruct (refresh_token (client s)) as [rt |] eqn:Hrt; [| reflexivity].
    simpl. destruct (tokens s) as [| r rest]; [reflexivity |].
    destruct (as_str (index r "access_token")) as [at_ |]; [| reflexivity].
    split; [discriminate |]. exists at_. simpl. auto.
Qed.

Lemma do_refresh_replaces_only_access_token_witness :
  let s := {| client := auth_no_refresh; api := []; tokens := [token_answer "a1"];
              sent := []; counters := [] |} in
  do_refresh s = Panic s.
Proof.
  intros s. apply (proj1 (do_refresh_replaces_only_access_token s)).
  reflexivity.
Defined.

(** ** C1: the re-authorisation loop *)

(** C1 (counterexample). Two consecutive 401 envelopes on the label
    listing: the code refreshes twice, sends the request a third time and
    completes with the third answer; no failure is raised after the second
    401. *)
Lemma load_labels_third_attempt_after_two_401 :
  match load_labels c1_state with
  | Ret labels s' =>
      labels = ∅ /\ api_requests (sent s') = 3 /\ token_requests (sent s') = 2
  | Panic _ => False
  end.
Proof. vm_compute. auto. Qed.

Lemma auth_loop_refreshes_until_accepted (url : string) (errs : list Json)
  (j : Json) (rest toks more : list Json) (s : St) :
  is_authenticated (client s) = true ->
  refresh_token (client s) <> None ->
  Forall (fun e => needs_refresh e = true) errs ->
  needs_refresh j = false ->
  api s = errs ++ j :: rest ->
  length toks = length errs ->
  Forall (fun r => as_str (index r "access_token") <> None) toks ->
  tokens s = toks ++ more ->
  exists s', auth_loop url (api s) s = Ret j s' /\ api s' = rest /\
    tokens s' = more /\
    api_requests (sent s') = api_requests (sent s) + S (length errs) /\
    token_requests (sent s') = token_requests (sent s) + length errs.
Proof.
  revert s toks.
  induction errs as [| e errs IH]; intros s toks Hauth Hrt Herrs Hj Hapi Hlen Htoks Htok.
  - destruct toks; [| discriminate]. simpl in Htok.
    rewrite Hapi. simpl. unfold is_authenticated in Hauth.
    destruct (access_token (client s)) as [tok |]; [| discriminate].
    rewrite Hj. eexists. split; [reflexivity |]. simpl.
    rewrite api_requests_snoc, token_requests_snoc. simpl.
    repeat split; auto; lia.
  - destruct toks as [| r toks]; [discriminate |]. simpl in Hlen.
    inversion Herrs as [| ? ? He Herrs']; subst.
    inversion Htoks as [| ? ? Hr Htoks']; subst.
    rewrite Hapi. simpl. unfold is_authenticated in Hauth.
    destruct (access_token (client s)) as [tok |] eqn:Hat; [| discriminate].
    rewrite He. unfold do_refresh. simpl.
    destruct (refresh_token (client s)) as [rt |] eqn:Hrt'; [| congruence].
    simpl. rewrite Htok. simpl.
    destruct (as_str (index r "access_token")) as [at_ |] eqn:Hr'; [| congruence].
    set (s3 := set_client _ _).
    destruct (IH s3 toks) as (s' & Hrun & Hapi' & Htok' & Hn & Ht); simpl; auto.
    exists s'. split; [exact Hrun |].
    repeat split; auto.
    + rewrite Hn. simpl. rewrite !api_requests_snoc. simpl. lia.
    + rewrite Ht. simpl. rewrite !token_requests_snoc. simpl. lia.
Qed.

(** C1 (amended). On every provider call the code refreshes and resends
    the same request for as long as the answers signal 401: after [k]
    consecutive 401 envelopes and then an accepted answer, the call returns
    that answer having sent the request [k + 1] times and refreshed [k]
    times. There is no retry bound and no failure raised after the second
    401. *)
Theorem auth_get_refreshes_until_accepted (url : string) (errs : list Json)
  (j : Json) (rest toks more : list Json) (s : St) :
  is_authenticated (client s) = true ->
  refresh_token (client s) <> None ->
  Forall (fun e => needs_refresh e = true) errs ->
  needs_refresh j = false ->
  api s = errs ++ j :: rest ->
  length toks = length errs ->
  Forall (fun r => as_str (index r "access_token") <> None) toks ->
  tokens s = toks ++ more ->
  exists s', auth_get url s = Ret j s' /\ api s' = rest /\ tokens s' = more /\
    api_requests (sent s') = api_requests (sent s) + S (length errs) /\
    token_requests (sent s') = token_requests (sent s) + length errs.
Proof. intros. unfold auth_get. eapply auth_loop_refreshes_until_accepted; eauto. Qed.

Ltac close_concrete :=
  first [ reflexivity
        | vm_compute; discriminate
        | repeat constructor; vm_compute; first [reflexivity | discriminate] ].

Lemma auth_get_refreshes_until_accepted_witness :
  exists s', auth_get labels_url c1_state = Ret (JObj [("labels", JArr [])]) s' /\
    api s' = [] /\ tokens s' = [] /\
    api_requests (sent s') = api_requests (sent c1_state) + 3 /\
    token_requests (sent s') = token_requests (sent c1_state) + 2.
Proof.
  apply (auth_get_refreshes_until_accepted labels_url
           [error_envelope 401; error_envelope 401] (JObj [("labels", JArr [])]) []
           [token_answer "a1"; token_answer "a2"] [] c1_state);
    close_concrete.
Defined.

(** ** C2: history pagination *)

Lemma auth_get_accepted (url : string) (j : Json) (rest : list Json) (s : St)
  (tok : string) :
  access_token (client s) = Some tok ->
  api s = j :: rest ->
  needs_refresh j = false ->
  auth_get url s = Ret j (set_api rest (log_sent (ApiGet url tok) s)).
Proof.
  intros Htok Hapi Hj. unfold auth_get. rewrite Hapi. simpl.
  rewrite Htok, Hj. reflexivity.
Qed.

Lemma traverse_map {A} (f : Json -> option A) (g : A -> Json) (xs : list A) :
  (forall x, f (g x) = Some x) -> traverse f (map g xs) = Some xs.
Proof.
  intros Hfg. induction xs as [| x xs IH]; simpl; [reflexivity |].
  rewrite Hfg, IH. reflexivity.
Qed.

Lemma de_MinimalMessage_enc (m : MinimalMessage) :
  de_MinimalMessage (enc_MinimalMessage m) = Some m.
Proof. destruct m. reflexivity. Qed.

Lemma de_MessageAdded_enc (a : MessageAdded) :
  de_MessageAdded (enc_MessageAdded a) = Some a.
Proof. destruct a as [[i t]]. reflexivity. Qed.

Lemma de_History_enc (h : History) : de_History (enc_History h) = Some h.
Proof.
  destruct h as [i [ms |]]; [| reflexivity].
  unfold enc_History, de_History. simpl.
  unfold de_opt_field. simpl.
  rewrite (traverse_map _ _ _ de_MessageAdded_enc). reflexivity.
Qed.

Lemma de_HistoryResponse_enc (h : HistoryResponse) :
  de_HistoryResponse (enc_HistoryResponse h) = Some h.
Proof.
  destruct h as [[hs |] [t |] i]; unfold enc_HistoryResponse, de_HistoryResponse;
    simpl; unfold de_opt_field, de_field; simpl;
    try rewrite (traverse_map _ _ _ de_History_enc); reflexivity.
Qed.

Lemma enc_HistoryResponse_accepted (h : HistoryResponse) :
  needs_refresh (enc_HistoryResponse h) = false.
Proof. destruct h as [[hs |] [t |] i]; reflexivity. Qed.

Lemma history_loop_pages (fuel : nat) (W : string) (pt : option string)
  (acc : list MinimalMessage) (pages : list HistoryResponse) (rest : list Json)
  (s : St) (tok : string) :
  access_token (client s) = Some tok ->
  chained pages = true ->
  api s = map enc_HistoryResponse pages ++ rest ->
  length pages <= fuel ->
  exists s', history_loop fuel W pt acc s = Ret (acc ++ concat (map history_refs pages)) s' /\
    client s' = client s /\ api s' = rest /\ tokens s' = tokens s /\
    sent s' = sent s ++ map (fun p => ApiGet (history_url W p) tok)
                            (pt :: map hr_next_page_token (removelast pages)).
Proof.
  revert fuel pt acc s.
  induction pages as [| p ps IH]; intros fuel pt acc s Htok Hch Hapi Hfuel;
    [discriminate |].
  destruct fuel as [| fuel]; [simpl in Hfuel; lia |].
  simpl in Hapi. simpl history_loop. unfold bindM at 1.
  rewrite (auth_get_accepted _ _ _ _ tok Htok Hapi (enc_HistoryResponse_accepted p)).
  unfold bindM, unwrapM. rewrite de_HistoryResponse_enc.
  destruct ps as [| p' ps].
  - simpl in Hch. destruct (hr_next_page_token p) as [t |] eqn:Ht; [discriminate |].
    eexists. split; [unfold retM; simpl; rewrite app_nil_r; reflexivity |].
    simpl. auto.
  - simpl in Hch. destruct (hr_next_page_token p) as [t |] eqn:Ht; [| discriminate].
    set (s1 := set_api _ _).
    destruct (IH fuel (Some t) (acc ++ history_refs p) s1) as (s' & Hrun & Hc & Ha & Hk & Hs);
      simpl; auto.
    + simpl in Hfuel. lia.
    + exists s'. split.
      * rewrite Hrun. simpl. rewrite <- app_assoc. reflexivity.
      * repeat split; auto. rewrite Hs. simpl. rewrite <- app_assoc. simpl.
        rewrite Ht. reflexivity.
Qed.

(** C2. Over a chain of history pages linked by [nextPageToken] (the last
    without one), [fetch_history W] requests the pages with [W] and the
    tokens in turn, and returns the concatenation, page by page and in page
    order, of the references in the [messagesAdded] entries of each page
    ([history_refs]: a page without [history], or an entry without
    [messagesAdded], contributes nothing), without error. *)
Theorem fetch_history_concatenates_pages (W : string) (pages : list HistoryResponse)
  (rest : list Json) (s : St) (tok : string) :
  access_token (client s) = Some tok ->
  chained pages = true ->
  api s = map enc_HistoryResponse pages ++ rest ->
  exists s', fetch_history W s = Ret (concat (map history_refs pages)) s' /\
    api s' = rest /\
    sent s' = sent s ++ map (fun pt => ApiGet (history_url W pt) tok) (page_tokens pages).
Proof.
  intros Htok Hch Hapi. unfold fetch_history.
  destruct (history_loop_pages (S (length (api s))) W None [] pages rest s tok)
    as (s' & Hrun & _ & Ha & _ & Hs); auto.
  - rewrite Hapi, length_app, length_map. lia.
  - exists s'. auto.
Qed.

Lemma fetch_history_concatenates_pages_witness :
  exists s', fetch_history "100" (start (map enc_HistoryResponse [page1; page2]) []) =
               Ret [{| mm_id := "m1"; mm_thread_id := "t1" |};
                    {| mm_id := "m2"; mm_thread_id := "t1" |}] s' /\
    api s' = [] /\
    sent s' = [ApiGet (history_url "100" None) "a0"; ApiGet (history_url "100" (Some "p2")) "a0"].
Proof.
  apply (fetch_history_concatenates_pages "100" [page1; page2] []
           (start (map enc_HistoryResponse [page1; page2]) []) "a0");
    reflexivity.
Defined.

(** ** Enrichment: C6, C7, C8 *)

Lemma lookup_list_map {A B} (f : A -> B) (l : list A) (i : nat) :
  List.map f l !! i = option_map f (l !! i).
Proof.
  revert i. induction l as [| x l IH]; intros [| i]; simpl; auto.
Qed.

Lemma not_found_accepted (j : Json) : is_not_found j = true -> needs_refresh j = false.
Proof.
  unfold is_not_found, needs_refresh, json_eq_int.
  destruct (index (index j "error") "code"); try reflexivity.
  intros H. apply Z.eqb_eq in H. subst. reflexivity.
Qed.

Section EnrichFacts.

Variable DateTime : Type.
Variable addrparse : string -> option MailAddrList.
Variable timestamp_millis_opt : Z -> option DateTime.

Local Abbreviation usable_from := (usable_from DateTime addrparse timestamp_millis_opt).
Local Abbreviation details_loop := (details_loop DateTime addrparse timestamp_millis_opt).

(** C6. When the detail request for a reference is answered with a
    not-found envelope (error code 404), the reference is skipped: the loop
    goes on with the remaining references and the same results, no event is
    produced and nothing fails. *)
Theorem details_loop_skips_not_found (m : MinimalMessage) (ms : list MinimalMessage)
  (labels : gmap string string) (results : list (UsableMessageDetails DateTime))
  (s : St) (j : Json) (rest : list Json) (tok : string) :
  access_token (client s) = Some tok ->
  api s = j :: rest ->
  is_not_found j = true ->
  details_loop (m :: ms) labels results s =
  details_loop ms labels results
    (set_api rest (log_sent (ApiGet (message_url (mm_id m)) tok) s)).
Proof.
  intros Htok Hapi Hnf. simpl. unfold bindM.
  rewrite (auth_get_accepted _ _ _ _ tok Htok Hapi (not_found_accepted j Hnf)).
  rewrite Hnf. reflexivity.
Qed.

(** C7. The labels of an enriched event are the message's label ids in
    order, one entry each: the catalog's name for an id in the catalog, the
    id itself otherwise. *)
Theorem usable_from_resolves_every_label (md : MessageDetails)
  (labels : gmap string string) (u : UsableMessageDetails DateTime) :
  usable_from md labels = Some u ->
  length (u_labels _ u) = length (md_label_ids md) /\
  forall i x, md_label_ids md !! i = Some x ->
    u_labels _ u !! i = Some (match labels !! x with Some n => n | None => x end).
Proof.
  unfold usable_from.
  destruct (collect_headers (mp_headers (md_payload md))) as [[from to] subject].
  destruct (addrparse to); [| discriminate].
  destruct (addrparse from); [| discriminate].
  destruct (parse_i64 (md_internal_date md)); [| discriminate].
  destruct (timestamp_millis_opt z); [| discriminate].
  intros H. injection H as <-. simpl. split.
  - apply length_map.
  - intros i x Hx. rewrite lookup_list_map, Hx. reflexivity.
Qed.

(** C8. When the detail payload's From or To header does not parse as an
    address list, or its internalDate is no [i64] or no representable
    millisecond timestamp, the enrichment loop panics right after receiving
    it: the run aborts and no event is built for it. *)
Theorem details_loop_aborts_on_unparsable_message (m : MinimalMessage)
  (ms : list MinimalMessage) (labels : gmap string string)
  (results : list (UsableMessageDetails DateTime)) (s : St) (j : Json)
  (rest : list Json) (tok : string) (md : MessageDetails) :
  access_token (client s) = Some tok ->
  api s = j :: rest ->
  needs_refresh j = false ->
  is_not_found j = false ->
  de_MessageDetails j = Some md ->
  (let '(from, to, _) := collect_headers (mp_headers (md_payload md)) in
   addrparse from = None \/ addrparse to = None \/
   parse_i64 (md_internal_date md) = None \/
   exists millis, parse_i64 (md_internal_date md) = Some millis /\
                  timestamp_millis_opt millis = None) ->
  details_loop (m :: ms) labels results s =
  Panic (set_api rest (log_sent (ApiGet (message_url (mm_id m)) tok) s)).
Proof.
  intros Htok Hapi Hj Hnf Hmd Hbad. simpl. unfold bindM.
  rewrite (auth_get_accepted _ _ _ _ tok Htok Hapi Hj), Hnf.
  unfold unwrapM at 1. rewrite Hmd.
  assert (usable_from md labels = None) as ->; [| reflexivity].
  unfold usable_from.
  destruct (collect_headers (mp_headers (md_payload md))) as [[from to] subject].
  destruct Hbad as [H | [H | [H | (n & Hn & H)]]].
  - destruct (addrparse to); [| reflexivity]. rewrite H. reflexivity.
  - rewrite H. reflexivity.
  - destruct (addrparse to); [| reflexivity].
    destruct (addrparse from); [| reflexivity]. rewrite H. reflexivity.
  - destruct (addrparse to); [| reflexivity].
    destruct (addrparse from); [| reflexivity]. rewrite Hn, H. reflexivity.
Qed.

End EnrichFacts.

Example fetch_mail_details_skips_deleted :
  match fetch_mail_details Z addrparse_bare millis_in_range [ref "m1"; ref "m2"]
          catalog c6_state with
  | Ret [u] s' => u_id _ u = "m2" /\ u_labels _ u = ["Inbox"] /\ api s' = []
  | _ => False
  end.
Proof. vm_compute. auto. Qed.

Lemma details_loop_skips_not_found_witness :
  details_loop Z addrparse_bare millis_in_range [ref "m1"; ref "m2"] catalog [] c6_state =
  details_loop Z addrparse_bare millis_in_range [ref "m2"] catalog []
    (set_api (List.tl (api c6_state)) (log_sent (ApiGet (message_url "m1") "a0") c6_state)).
Proof.
  exact (details_loop_skips_not_found Z addrparse_bare millis_in_range (ref "m1")
           [ref "m2"] catalog [] c6_state (error_envelope 404)
           (List.tl (api c6_state)) "a0" eq_refl eq_refl eq_refl).
Defined.

Lemma usable_from_resolves_every_label_witness :
  length (u_labels _ u7) = length (md_label_ids md7) /\
  forall i x, md_label_ids md7 !! i = Some x ->
    u_labels _ u7 !! i = Some (match catalog !! x with Some n => n | None => x end).
Proof.
  apply (usable_from_resolves_every_label Z addrparse_bare millis_in_range md7 catalog u7).
  vm_compute. reflexivity.
Defined.

Lemma details_loop_aborts_on_unparsable_message_witness :
  details_loop Z addrparse_bare millis_in_range [ref "m4"] catalog [] c8_state =
  Panic (set_api [] (log_sent (ApiGet (message_url "m4") "a0") c8_state)).
Proof.
  refine (details_loop_aborts_on_unparsable_message Z addrparse_bare millis_in_range
            (ref "m4") [] catalog [] c8_state (enc_MessageDetails md8) [] "a0" md8
            eq_refl eq_refl eq_refl eq_refl eq_refl _).
  simpl. right. right. left. reflexivity.
Defined.

(** ** Addresses and metric labels: C10, C5 *)

Lemma ascii_lower_at (c : ascii) : Ascii.eqb (ascii_lower c) "@" = Ascii.eqb c "@".
Proof. destruct c as [[] [] [] [] [] [] [] []]; reflexivity. Qed.

Lemma ascii_lower_idem (c : ascii) : ascii_lower (ascii_lower c) = ascii_lower c.
Proof. destruct c as [[] [] [] [] [] [] [] []]; reflexivity. Qed.

Lemma to_lowercase_idem (s : string) : to_lowercase (to_lowercase s) = to_lowercase s.
Proof. induction s as [| c s IH]; simpl; [reflexivity |]. rewrite ascii_lower_idem, IH. reflexivity. Qed.

Lemma has_char_lower_at (s : string) : has_char "@" (to_lowercase s) = has_char "@" s.
Proof. induction s as [| c s IH]; simpl; [reflexivity |]. rewrite ascii_lower_at, IH. reflexivity. Qed.

Lemma after_last_lower_at (s : string) :
  after_last "@" (to_lowercase s) = to_lowercase (after_last "@" s).
Proof.
  induction s as [| c s IH]; simpl; [reflexivity |].
  rewrite has_char_lower_at, ascii_lower_at.
  destruct (has_char "@" s); [exact IH |].
  destruct (Ascii.eqb c "@"); reflexivity.
Qed.

Lemma after_last_no_char (c : ascii) (s : string) :
  has_char c s = false -> after_last c s = s.
Proof.
  destruct s as [| a s]; simpl; [reflexivity |].
  intros H. apply orb_false_iff in H as [Ha Hs]. rewrite Hs, Ha. reflexivity.
Qed.

Lemma split_char_cons (c : ascii) (s : string) :
  exists p ps, split_char c s = p :: ps.
Proof.
  induction s as [| a s (p & ps & IH)]; simpl; [eauto |].
  rewrite IH. destruct (Ascii.eqb a c); eauto.
Qed.

Lemma split_char_none (c : ascii) (s : string) :
  has_char c s = false -> split_char c s = [s].
Proof.
  induction s as [| a s IH]; simpl; [reflexivity |].
  intros H. apply orb_false_iff in H as [Ha Hs]. rewrite Ha, IH by exact Hs.
  reflexivity.
Qed.

Lemma split_char_many (c : ascii) (s : string) :
  has_char c s = true -> exists p q ps, split_char c s = p :: q :: ps.
Proof.
  induction s as [| a s IH]; simpl; [discriminate |].
  intros H. destruct (Ascii.eqb a c) eqn:Ha.
  - destruct (split_char_cons c s) as (p & ps & Hs). rewrite Hs. eauto.
  - simpl in H. destruct (IH H) as (p & q & ps & Hs). rewrite Hs. eauto.
Qed.

(** The last piece of [s.split(c)] is the text after the last [c]. *)
Lemma iter_last_split_char (c : ascii) (s : string) :
  iter_last (split_char c s) = Some (after_last c s).
Proof.
  induction s as [| a s IH]; simpl; [reflexivity |].
  destruct (Ascii.eqb a c) eqn:Ha.
  - destruct (split_char_cons c s) as (p & ps & Hs). rewrite Hs in IH |- *.
    change (iter_last (p :: ps) = Some (if has_char c s then after_last c s else s)).
    rewrite IH. destruct (has_char c s) eqn:Hh; [reflexivity |].
    rewrite after_last_no_char by exact Hh. reflexivity.
  - destruct (has_char c s) eqn:Hh.
    + destruct (split_char_many c s Hh) as (p & q & ps & Hs).
      rewrite Hs in IH |- *. exact IH.
    + rewrite split_char_none by exact Hh. reflexivity.
Qed.

Lemma first_domain_spec (l : MailAddrList) :
  first_domain l =
  Some (option_map (fun si => to_lowercase (after_last "@" (addr si)))
                   (first_single_mailer l)).
Proof.
  unfold first_domain, first_address.
  destruct (first_single_mailer l) as [si |]; [| reflexivity].
  rewrite iter_last_split_char, after_last_lower_at, to_lowercase_idem.
  reflexivity.
Qed.

(** C10. [first_domain] never panics (its [unwrap] is on the last piece of
    a split, and a split has at least one piece); it gives [Some] exactly
    when [first_address] does, with the lowercased text after the last [@]
    of the first single address, and the whole lowercased address when that
    address has no [@]. *)
Theorem first_domain_total_after_last_at (l : MailAddrList) :
  match first_single_mailer l with
  | Some si =>
      first_address l = Some (to_lowercase (addr si)) /\
      first_domain l = Some (Some (to_lowercase (after_last "@" (addr si))))
  | None => first_address l = None /\ first_domain l = Some None
  end /\
  (forall si, first_single_mailer l = Some si -> has_char "@" (addr si) = false ->
     first_domain l = Some (Some (to_lowercase (addr si)))).
Proof.
  rewrite first_domain_spec. unfold first_address. split.
  - destruct (first_single_mailer l); auto.
  - intros si Hsi Hno. rewrite Hsi. simpl. rewrite after_last_no_char by exact Hno.
    reflexivity.
Qed.

Lemma first_domain_total_after_last_at_witness :
  first_domain [Group {| group_name := "team"; addrs := [] |};
                Single {| display_name := None; addr := "Postmaster" |}] =
  Some (Some "postmaster").
Proof.
  exact (proj2 (first_domain_total_after_last_at
                  [Group {| group_name := "team"; addrs := [] |};
                   Single {| display_name := None; addr := "Postmaster" |}])
               {| display_name := None; addr := "Postmaster" |} eq_refl eq_refl).
Defined.

(** C5. [as_labels] never panics; its [from_domain] label is the lowercased
    domain of the first To address ("unknown" when the To list has no single
    address), computed from the To list alone, and its [to_domain] label has
    the same value. *)
Theorem as_labels_from_domain_is_to_domain (D : Type) (u : UsableMessageDetails D) :
  exists ls, as_labels D u = Some ls /\
    assoc "from_domain" ls =
      Some (unwrap_or (option_map (fun si => to_lowercase (after_last "@" (addr si)))
                                  (first_single_mailer (u_to D u))) "unknown") /\
    assoc "to_domain" ls = assoc "from_domain" ls.
Proof.
  unfold as_labels. rewrite first_domain_spec.
  eexists. split; [reflexivity |]. simpl. split; reflexivity.
Qed.

(** ** The watch loop: C3, C4 *)

Lemma keeps_counters_bind {A B} (c : M A) (k : A -> M B) :
  keeps_counters c -> (forall a, keeps_counters (k a)) -> keeps_counters (bindM c k).
Proof.
  intros Hc Hk s. unfold bindM. specialize (Hc s).
  destruct (c s) as [a s1 | s1]; [| exact Hc].
  specialize (Hk a s1). destruct (k a s1); congruence.
Qed.

Lemma keeps_counters_ret {A} (a : A) : keeps_counters (retM a).
Proof. intros s. reflexivity. Qed.

Lemma keeps_counters_unwrap {A} (o : option A) : keeps_counters (unwrapM o).
Proof. intros s. destruct o; reflexivity. Qed.

Lemma keeps_counters_do_refresh : keeps_counters do_refresh.
Proof.
  intros s. unfold do_refresh. cbv zeta.
  destruct (refresh_token (client s)); [| reflexivity]. simpl.
  destruct (tokens s); [reflexivity |].
  destruct (as_str (index j "access_token")); reflexivity.
Qed.

Lemma keeps_counters_auth_loop (url : string) (pending : list Json) :
  keeps_counters (auth_loop url pending).
Proof.
  induction pending as [| j rest IH]; intros s; simpl;
    destruct (access_token (client s)); try reflexivity.
  destruct (needs_refresh j); [| reflexivity].
  set (s2 := set_api rest (log_sent (ApiGet url s0) s)).
  pose proof (keeps_counters_do_refresh s2) as Hr.
  destruct (do_refresh s2) as [[] s3 | s3] eqn:E; try rewrite E in Hr; simpl in Hr;
    [| exact Hr].
  specialize (IH s3). destruct (auth_loop url rest s3); congruence.
Qed.

Lemma keeps_counters_auth_get (url : string) : keeps_counters (auth_get url).
Proof. intros s. apply keeps_counters_auth_loop. Qed.

Lemma keeps_counters_history_loop (fuel : nat) (W : string) (pt : option string)
  (acc : list MinimalMessage) : keeps_counters (history_loop fuel W pt acc).
Proof.
  revert pt acc. induction fuel as [| fuel IH]; intros pt acc; [intros s; reflexivity |].
  simpl. apply keeps_counters_bind; [apply keeps_counters_auth_get |]. intros res.
  apply keeps_counters_bind; [apply keeps_counters_unwrap |]. intros h.
  destruct (hr_next_page_token h); [apply IH | apply keeps_counters_ret].
Qed.

Lemma keeps_counters_fetch_history (W : string) : keeps_counters (fetch_history W).
Proof. intros s. apply keeps_counters_history_loop. Qed.

Lemma keeps_counters_details_loop (D : Type) (ap : string -> option MailAddrList)
  (tm : Z -> option D) (listing : list MinimalMessage) (labels : gmap string string)
  (results : list (UsableMessageDetails D)) :
  keeps_counters (details_loop D ap tm listing labels results).
Proof.
  revert results. induction listing as [| m ms IH]; intros results;
    [apply keeps_counters_ret |].
  simpl. apply keeps_counters_bind; [apply keeps_counters_auth_get |]. intros res.
  destruct (is_not_found res); [apply IH |].
  apply keeps_counters_bind; [apply keeps_counters_unwrap |]. intros json.
  apply keeps_counters_bind; [apply keeps_counters_unwrap |]. intros usable.
  apply IH.
Qed.

Lemma as_labels_some (D : Type) (u : UsableMessageDetails D) :
  exists ls, as_labels D u = Some ls.
Proof. unfold as_labels. rewrite first_domain_spec. eauto. Qed.

Lemma emit_received_counts (D : Type) (details : list (UsableMessageDetails D)) (s : St) :
  exists s' new, emit_received D details s = Ret tt s' /\
    counters s' = counters s ++ new /\ length new = length details /\
    Forall (fun c => fst c = "email_received") new.
Proof.
  revert s. induction details as [| u us IH]; intros s.
  - exists s, []. rewrite app_nil_r. auto.
  - simpl. unfold bindM, unwrapM. destruct (as_labels_some D u) as [ls Hls].
    rewrite Hls.
    destruct (IH (count ("email_received", ls) s)) as (s' & new & Hrun & Hc & Hl & Hf).
    exists s', (("email_received", ls) :: new). split; [exact Hrun |].
    simpl in Hc. rewrite Hc, <- app_assoc. simpl. auto.
Qed.

Lemma iter_last_cons {A} (x : A) (xs : list A) : exists y, iter_last (x :: xs) = Some y.
Proof.
  revert x. induction xs as [| x' xs IH]; intros x; simpl; [eauto |].
  apply IH.
Qed.

(** C3 (counterexample). A cycle started from watermark "500" whose only
    new message carries historyId "100" moves the watermark back to "100":
    the code sets the watermark without comparing it with the old one. *)
Lemma watch_cycle_moves_watermark_back :
  match watch_cycle Z addrparse_bare millis_in_range catalog "500" c3_state with
  | Ret w _ => w = "100" /\ parse_i64 w = Some 100%Z /\ parse_i64 "500" = Some 500%Z
  | Panic _ => False
  end.
Proof. vm_compute. auto. Qed.

(** C3 (amended). A watch cycle that completes sets the watermark to the
    history_id of the last enriched event of its batch, and leaves it
    unchanged when the batch is empty; no comparison with the previous
    watermark is made. *)
Theorem watch_cycle_watermark (D : Type) (ap : string -> option MailAddrList)
  (tm : Z -> option D) (labels : gmap string string) (W W' : string) (s s' : St) :
  watch_cycle D ap tm labels W s = Ret W' s' ->
  exists history s1 details s2,
    fetch_history W s = Ret history s1 /\
    fetch_mail_details D ap tm history labels s1 = Ret details s2 /\
    W' = match iter_last details with
         | Some last => u_history_id D last
         | None => W
         end.
Proof.
  unfold watch_cycle, bindM.
  destruct (fetch_history W s) as [history s1 | s1] eqn:Eh; [| discriminate].
  destruct (fetch_mail_details D ap tm history labels s1) as [details s2 | s2] eqn:Ed;
    [| discriminate].
  intros Hrun. exists history, s1, details, s2. split; [reflexivity |].
  split; [exact Ed |].
  destruct details as [| u us].
  - injection Hrun as <- _. reflexivity.
  - unfold unwrapM in Hrun. destruct (iter_last_cons u us) as [last Hl].
    rewrite Hl in Hrun |- *.
    destruct (emit_received D (u :: us) s2); [| discriminate].
    injection Hrun as <- _. reflexivity.
Qed.

Lemma watch_cycle_watermark_witness :
  exists history s1 details s2,
    fetch_history "500" c3_state = Ret history s1 /\
    fetch_mail_details Z addrparse_bare millis_in_range history catalog s1 = Ret details s2 /\
    "100" = match iter_last details with
            | Some last => u_history_id Z last
            | None => "500"
            end.
Proof.
  refine (watch_cycle_watermark Z addrparse_bare millis_in_range catalog "500" "100"
            c3_state _ _).
  vm_compute. reflexivity.
Defined.

Lemma counter_count_app (name : string) (l1 l2 : list CounterInc) :
  counter_count name (l1 ++ l2) = counter_count name l1 + counter_count name l2.
Proof. unfold counter_count. rewrite List.filter_app, length_app. reflexivity. Qed.

Lemma counter_count_other (name : string) (l : list CounterInc) :
  name <> "email_received" -> Forall (fun c => fst c = "email_received") l ->
  counter_count name l = 0.
Proof.
  intros Hne Hl. unfold counter_count. induction Hl as [| c l Hc _ IH]; [reflexivity |].
  simpl. rewrite Hc. destruct (String.eqb_spec "email_received" name); [congruence |].
  exact IH.
Qed.

(** C4 (counterexample). A cycle that finds no new mail increments no
    counter: there is no [email_polls] counter in the code. *)
Lemma watch_cycle_does_not_count_polls :
  match watch_cycle Z addrparse_bare millis_in_range catalog "500" c4_state with
  | Ret w s' =>
      w = "500" /\ counters s' = [] /\ counter_count "email_polls" (counters s') = 0
  | Panic _ => False
  end.
Proof. vm_compute. auto. Qed.

(** C4 (amended). A completed watch cycle adds exactly one
    [email_received] increment per enriched event of its batch and no other
    counter increment; in particular the [email_polls] count is unchanged,
    whether or not new mail was found. *)
Theorem watch_cycle_counts_received_only (D : Type) (ap : string -> option MailAddrList)
  (tm : Z -> option D) (labels : gmap string string) (W W' : string) (s s' : St) :
  watch_cycle D ap tm labels W s = Ret W' s' ->
  exists history s1 details s2 new,
    fetch_history W s = Ret history s1 /\
    fetch_mail_details D ap tm history labels s1 = Ret details s2 /\
    counters s' = counters s ++ new /\ length new = length details /\
    Forall (fun c => fst c = "email_received") new /\
    counter_count "email_polls" (counters s') = counter_count "email_polls" (counters s).
Proof.
  unfold watch_cycle, bindM.
  pose proof (keeps_counters_fetch_history W s) as K1.
  destruct (fetch_history W s) as [history s1 | s1] eqn:Eh; [| discriminate].
  pose proof (keeps_counters_details_loop D ap tm history labels [] s1) as K2.
  unfold fetch_mail_details.
  destruct (details_loop D ap tm history labels [] s1) as [details s2 | s2] eqn:Ed;
    [| discriminate].
  intros Hrun. simpl in K1, K2.
  assert (Hs2 : counters s2 = counters s) by congruence.
  assert (Hfinal : exists new, counters s' = counters s ++ new /\
            length new = length details /\
            Forall (fun c => fst c = "email_received") new).
  { destruct details as [| u us].
    - injection Hrun as _ <-. exists []. rewrite app_nil_r. auto.
    - unfold unwrapM in Hrun. destruct (iter_last_cons u us) as [last Hl].
      rewrite Hl in Hrun.
      destruct (emit_received_counts D (u :: us) s2) as (s3 & new & Hem & Hc & Hlen & Hf).
      rewrite Hem in Hrun. injection Hrun as _ <-.
      exists new. rewrite Hc, Hs2. auto. }
  destruct Hfinal as (new & Hc & Hlen & Hf).
  exists history, s1, details, s2, new.
  split; [reflexivity |]. split; [exact Ed |]. repeat split; auto.
  rewrite Hc, counter_count_app, (counter_count_other _ new); [lia | discriminate | exact Hf].
Qed.

Lemma watch_cycle_counts_received_only_witness :
  exists history s1 details s2 new,
    fetch_history "500" c3_state = Ret history s1 /\
    fetch_mail_details Z addrparse_bare millis_in_range history catalog s1 = Ret details s2 /\
    counters (start [] []) ++ [("email_received",
       [("from", "alice@example.com"); ("to", "bob@example.org");
        ("from_domain", "example.org"); ("to_domain", "example.org");
        ("label_Inbox", "true")])] = counters c3_state ++ new /\
    length new = length details /\
    Forall (fun c => fst c = "email_received") new /\
    counter_count "email_polls" (counters (start [] []) ++ [("email_received",
       [("from", "alice@example.com"); ("to", "bob@example.org");
        ("from_domain", "example.org"); ("to_domain", "example.org");
        ("label_Inbox", "true")])]) = counter_count "email_polls" (counters c3_state).
Proof.
  refine (watch_cycle_counts_received_only Z addrparse_bare millis_in_range catalog
            "500" "100" c3_state
            {| client := auth0; api := []; tokens := []; 
               sent := [ApiGet (history_url "500" None) "a0";
                        ApiGet (message_url "m1") "a0"];
               counters := counters (start [] []) ++ [("email_received",
                 [("from", "alice@example.com"); ("to", "bob@example.org");
                  ("from_domain", "example.org"); ("to_domain", "example.org");
                  ("label_Inbox", "true")])] |} _).
  vm_compute. reflexivity.
Defined.

(** * Further properties of the code *)

(** ** The header scan of UsableMessageDetails::from *)

Lemma iter_last_snoc_view {A} (x : A) (xs : list A) :
  iter_last (x :: xs) = match iter_last xs with Some y => Some y | None => Some x end.
Proof.
  revert x. induction xs as [| x' xs IH]; intros x; [reflexivity |].
  change (iter_last (x :: x' :: xs)) with (iter_last (x' :: xs)).
  rewrite IH. destruct (iter_last xs); reflexivity.
Qed.

Lemma last_header_cons (name : string) (h : MessageHeader) (hs : list MessageHeader) :
  last_header name (h :: hs) =
  match last_header name hs with
  | Some v => Some v
  | None => if String.eqb (mh_name h) name then Some (mh_value h) else None
  end.
Proof.
  unfold last_header. cbn [List.filter].
  destruct (String.eqb (mh_name h) name).
  - rewrite iter_last_snoc_view. destruct (iter_last _); reflexivity.
  - destruct (iter_last _); reflexivity.
Qed.

Lemma fold_header_step (hs : list MessageHeader) (acc : string * string * string) :
  fold_left header_step hs acc =
  (unwrap_or (last_header "From" hs) (fst (fst acc)),
   unwrap_or (last_header "To" hs) (snd (fst acc)),
   unwrap_or (last_header "Subject" hs) (snd acc)).
Proof.
  revert acc. induction hs as [| [n v] hs IH]; intros [[f t] u]; [reflexivity |].
  simpl fold_left. rewrite IH, !last_header_cons. cbn [mh_name mh_value].
  unfold header_step.
  destruct (String.eqb_spec n "From") as [-> | H1]; [simpl;
    destruct (last_header "From" hs), (last_header "To" hs), (last_header "Subject" hs);
    reflexivity |].
  destruct (String.eqb_spec n "To") as [-> | H2]; [simpl;
    destruct (last_header "From" hs), (last_header "To" hs), (last_header "Subject" hs);
    reflexivity |].
  destruct (String.eqb_spec n "Subject") as [-> | H3]; simpl;
    destruct (last_header "From" hs), (last_header "To" hs), (last_header "Subject" hs);
    reflexivity.
Qed.

Lemma collect_headers_spec (hs : list MessageHeader) :
  collect_headers hs =
  (unwrap_or (last_header "From" hs) "", unwrap_or (last_header "To" hs) "",
   unwrap_or (last_header "Subject" hs) "").
Proof. unfold collect_headers. rewrite fold_header_step. reflexivity. Qed.

(** The header scan keeps, for each of the names "From", "To" and
    "Subject" (matched exactly, case included), the value of the last
    header of that name, and the empty string when there is none; every
    other header is ignored. *)
Theorem collect_headers_last_of_each_name (hs : list MessageHeader) :
  collect_headers hs =
  (unwrap_or (last_header "From" hs) "", unwrap_or (last_header "To" hs) "",
   unwrap_or (last_header "Subject" hs) "").
Proof. apply collect_headers_spec. Qed.

(** [UsableMessageDetails::from] copies the id, thread id and history id of
    the message, takes the subject from the last "Subject" header, parses
    the last "From" and "To" headers (the empty string when missing) into
    the sender and recipient lists, and takes the date from the
    internalDate string read as an [i64] count of milliseconds. *)
Theorem usable_from_fields (D : Type) (ap : string -> option MailAddrList)
  (tm : Z -> option D) (md : MessageDetails) (labels : gmap string string)
  (u : UsableMessageDetails D) :
  usable_from D ap tm md labels = Some u ->
  u_id D u = md_id md /\ u_thread_id D u = md_thread_id md /\
  u_history_id D u = md_history_id md /\
  u_subject D u = unwrap_or (last_header "Subject" (mp_headers (md_payload md))) "" /\
  ap (unwrap_or (last_header "From" (mp_headers (md_payload md))) "") = Some (u_from D u) /\
  ap (unwrap_or (last_header "To" (mp_headers (md_payload md))) "") = Some (u_to D u) /\
  exists ms, parse_i64 (md_internal_date md) = Some ms /\ tm ms = Some (u_internal_date D u).
Proof.
  unfold usable_from. rewrite collect_headers_spec.
  destruct (ap (unwrap_or (last_header "To" _) "")) as [to_ |] eqn:Eto; [| discriminate].
  destruct (ap (unwrap_or (last_header "From" _) "")) as [from_ |] eqn:Efrom;
    [| discriminate].
  destruct (parse_i64 (md_internal_date md)) as [ms |] eqn:Ems; [| discriminate].
  destruct (tm ms) as [dt |] eqn:Edt; [| discriminate].
  intros H. injection H as <-. simpl. repeat split; auto. exists ms. auto.
Qed.

Lemma usable_from_fields_witness :
  u_id Z u7 = md_id md7 /\ u_thread_id Z u7 = md_thread_id md7 /\
  u_history_id Z u7 = md_history_id md7 /\
  u_subject Z u7 = unwrap_or (last_header "Subject" (mp_headers (md_payload md7))) "" /\
  addrparse_bare (unwrap_or (last_header "From" (mp_headers (md_payload md7))) "") =
    Some (u_from Z u7) /\
  addrparse_bare (unwrap_or (last_header "To" (mp_headers (md_payload md7))) "") =
    Some (u_to Z u7) /\
  exists ms, parse_i64 (md_internal_date md7) = Some ms /\
             millis_in_range ms = Some (u_internal_date Z u7).
Proof.
  exact (usable_from_fields Z addrparse_bare millis_in_range md7 catalog u7 eq_refl).
Defined.

(** ** ParseForMetrics::first_single_mailer *)

(** [first_single_mailer] returns the first single address after any
    leading groups, and returns nothing exactly when the list holds only
    groups: it never looks at the members of a group. *)
Theorem first_single_mailer_skips_groups (l : MailAddrList) :
  (forall si, first_single_mailer l = Some si <->
              exists gs rest, l = map Group gs ++ Single si :: rest) /\
  (first_single_mailer l = None <-> exists gs, l = map Group gs).
Proof.
  induction l as [| [g | x] l IH].
  - split.
    + intros si. split; [discriminate |].
      intros (gs & rest & H). destruct gs; discriminate.
    + split; [intros _; exists []; reflexivity | reflexivity].
  - destruct IH as [IHs IHn]. split.
    + intros si. simpl. rewrite IHs. split.
      * intros (gs & rest & ->). exists (g :: gs), rest. reflexivity.
      * intros ([| g' gs] & rest & H); [discriminate |].
        injection H as _ ->. eauto.
    + simpl. rewrite IHn. split.
      * intros (gs & ->). exists (g :: gs). reflexivity.
      * intros ([| g' gs] & H); [discriminate |]. injection H as _ ->. eauto.
  - split.
    + intros si. simpl. split.
      * intros H. injection H as <-. exists [], l. reflexivity.
      * intros ([| g' gs] & rest & H); [injection H as -> _; reflexivity | discriminate].
    + simpl. split; [discriminate |].
      intros ([| g' gs] & H); discriminate.
Qed.

(** A message whose To list holds only groups, members or not, is counted
    with "unknown" recipient and recipient domain; so is its sender domain,
    which [as_labels] also takes from the To list. *)
Theorem as_labels_groups_only_recipients (D : Type) (u : UsableMessageDetails D)
  (gs : list GroupInfo) :
  u_to D u = map Group gs ->
  as_labels D u =
  Some ([("from", unwrap_or (first_address (u_from D u)) "unknown");
         ("to", "unknown"); ("from_domain", "unknown"); ("to_domain", "unknown")]
        ++ map (fun label => ("label_" +:+ label, "true")) (u_labels D u)).
Proof.
  intros Hto.
  assert (Hn : first_single_mailer (u_to D u) = None).
  { apply (proj2 (first_single_mailer_skips_groups _)). eauto. }
  unfold as_labels, first_domain, first_address. rewrite Hn. reflexivity.
Qed.

Lemma as_labels_groups_only_recipients_witness :
  as_labels Z (Build_UsableMessageDetails Z "m1" "t1" "7" ["Inbox"] 0%Z
                 [Single {| display_name := None; addr := "Alice@example.com" |}]
                 [Group {| group_name := "team";
                           addrs := [{| display_name := None; addr := "bob@example.org" |}] |}]
                 "") =
  Some ([("from", "alice@example.com"); ("to", "unknown"); ("from_domain", "unknown");
         ("to_domain", "unknown")] ++ [("label_Inbox", "true")]).
Proof.
  exact (as_labels_groups_only_recipients Z
           (Build_UsableMessageDetails Z "m1" "t1" "7" ["Inbox"] 0%Z
              [Single {| display_name := None; addr := "Alice@example.com" |}]
              [Group {| group_name := "team";
                        addrs := [{| display_name := None; addr := "bob@example.org" |}] |}]
              "")
           [{| group_name := "team";
               addrs := [{| display_name := None; addr := "bob@example.org" |}] |}]
           eq_refl).
Defined.

(** ** MailClient::load_labels and fetch_mail *)

Lemma assoc_app {A} (k : string) (l1 l2 : list (string * A)) :
  assoc k (l1 ++ l2) = match assoc k l1 with Some v => Some v | None => assoc k l2 end.
Proof.
  induction l1 as [| [k' v'] l1 IH]; [reflexivity |]. simpl.
  destruct (String.eqb k k'); [reflexivity | exact IH].
Qed.

Lemma insert_labels_spec (ls : list Json) (m : gmap string string) :
  match traverse label_entry ls with
  | None => insert_labels ls m = None
  | Some es => exists m', insert_labels ls m = Some m' /\
      forall i, m' !! i = match assoc i (rev es) with Some n => Some n | None => m !! i end
  end.
Proof.
  revert m. induction ls as [| l ls IH]; intros m.
  - simpl. exists m. split; reflexivity.
  - cbn [traverse insert_labels].
    assert (El : label_entry l =
              match as_str (index l "id"), as_str (index l "name") with
              | Some i, Some n => Some (i, n)
              | _, _ => None
              end) by reflexivity.
    rewrite El.
    destruct (as_str (index l "id")) as [i |]; [| reflexivity].
    destruct (as_str (index l "name")) as [n |]; [| reflexivity].
    specialize (IH (<[i := n]> m)).
    destruct (traverse label_entry ls) as [es |]; [| exact IH].
    destruct IH as (m' & Hins & Hlk). exists m'. split; [exact Hins |].
    intros k. rewrite Hlk. simpl. rewrite assoc_app. simpl.
    destruct (assoc k (rev es)); [reflexivity |].
    destruct (String.eqb_spec k i) as [-> | Hne].
    + apply lookup_insert_eq.
    + rewrite lookup_insert_ne; [reflexivity | congruence].
Qed.

(** When the labels answer is accepted and every label has a string id and
    name, [load_labels] consumes that one answer and maps each label id to
    the name of the last label listed with that id; ids not listed are
    absent. *)
Theorem load_labels_last_name_wins (s : St) (tok : string) (j : Json)
  (rest ls : list Json) (es : list (string * string)) :
  access_token (client s) = Some tok ->
  api s = j :: rest ->
  needs_refresh j = false ->
  as_array (index j "labels") = Some ls ->
  traverse label_entry ls = Some es ->
  exists m, load_labels s = Ret m (set_api rest (log_sent (ApiGet labels_url tok) s)) /\
    forall i, m !! i = assoc i (rev es).
Proof.
  intros Htok Hapi Hj Hls Hes. unfold load_labels, bindM.
  rewrite (auth_get_accepted _ _ _ _ tok Htok Hapi Hj). unfold unwrapM. rewrite Hls.
  pose proof (insert_labels_spec ls ∅) as Hspec. rewrite Hes in Hspec.
  destruct Hspec as (m & Hins & Hlk). rewrite Hins. exists m. split; [reflexivity |].
  intros i. rewrite Hlk. destruct (assoc i (rev es)); reflexivity.
Qed.

Lemma load_labels_last_name_wins_witness :
  exists m, load_labels (start [labels_page] []) =
              Ret m (set_api [] (log_sent (ApiGet labels_url "a0") (start [labels_page] []))) /\
    forall i, m !! i = assoc i (rev [("L1", "Work"); ("INBOX", "Inbox"); ("L1", "Work2")]).
Proof.
  exact (load_labels_last_name_wins (start [labels_page] []) "a0" labels_page [] _
           [("L1", "Work"); ("INBOX", "Inbox"); ("L1", "Work2")]
           eq_refl eq_refl eq_refl eq_refl eq_refl).
Defined.

(** An accepted labels answer without a "labels" array, or with a label
    lacking a string id or name, makes [load_labels] panic. *)
Theorem load_labels_panics_on_malformed_labels (s : St) (tok : string) (j : Json)
  (rest : list Json) :
  access_token (client s) = Some tok ->
  api s = j :: rest ->
  needs_refresh j = false ->
  (as_array (index j "labels") = None \/
   exists ls, as_array (index j "labels") = Some ls /\ traverse label_entry ls = None) ->
  load_labels s = Panic (set_api rest (log_sent (ApiGet labels_url tok) s)).
Proof.
  intros Htok Hapi Hj Hbad. unfold load_labels, bindM.
  rewrite (auth_get_accepted _ _ _ _ tok Htok Hapi Hj). unfold unwrapM.
  destruct Hbad as [Hn | (ls & Hls & Hes)]; [rewrite Hn; reflexivity |].
  rewrite Hls. pose proof (insert_labels_spec ls ∅) as Hspec. rewrite Hes in Hspec.
  rewrite Hspec. reflexivity.
Qed.

Lemma load_labels_panics_on_malformed_labels_witness :
  load_labels (start [JObj [("labels", JArr [JObj [("id", JStr "L1")]])]] []) =
  Panic (set_api [] (log_sent (ApiGet labels_url "a0")
           (start [JObj [("labels", JArr [JObj [("id", JStr "L1")]])]] []))).
Proof.
  refine (load_labels_panics_on_malformed_labels
            (start [JObj [("labels", JArr [JObj [("id", JStr "L1")]])]] []) "a0"
            (JObj [("labels", JArr [JObj [("id", JStr "L1")]])]) [] eq_refl eq_refl eq_refl _).
  right. exists [JObj [("id", JStr "L1")]]. split; reflexivity.
Defined.



(** ** GoogleAuth::needs_refresh, the request loop without tokens, and
    handle_callback_url *)


(** Every authenticated request panics before anything is sent when the
    client has no access token; when it has one but no refresh token, a 401
    answer makes it panic after that single request, with no retry. *)
Theorem auth_get_without_tokens (url : string) (s : St) :
  (access_token (client s) = None -> auth_get url s = Panic s) /\
  (forall tok j rest,
     access_token (client s) = Some tok -> refresh_token (client s) = None ->
     api s = j :: rest -> needs_refresh j = true ->
     auth_get url s = Panic (set_api rest (log_sent (ApiGet url tok) s))).
Proof.
  split.
  - intros Hn. unfold auth_get. destruct (api s); simpl; rewrite Hn; reflexivity.
  - intros tok j rest Htok Hrt Hapi Hj. unfold auth_get. rewrite Hapi. simpl.
    rewrite Htok, Hj. unfold do_refresh. simpl. rewrite Hrt. reflexivity.
Qed.

Lemma auth_get_without_tokens_witness :
  auth_get labels_url (set_client (Build_GoogleAuth "cid" "csecret" None None)
                         (start [labels_page] [])) =
    Panic (set_client (Build_GoogleAuth "cid" "csecret" None None) (start [labels_page] [])) /\
  auth_get labels_url (set_client auth_no_refresh (start [error_envelope 401] [])) =
    Panic (set_api [] (log_sent (ApiGet labels_url "a0")
             (set_client auth_no_refresh (start [error_envelope 401] [])))).
Proof.
  split.
  - exact (proj1 (auth_get_without_tokens labels_url
                    (set_client (Build_GoogleAuth "cid" "csecret" None None)
                       (start [labels_page] []))) eq_refl).
  - exact (proj2 (auth_get_without_tokens labels_url
                    (set_client auth_no_refresh (start [error_envelope 401] [])))
             "a0" (error_envelope 401) [] eq_refl eq_refl eq_refl eq_refl).
Defined.

(** The token exchange of [handle_callback_url] sends one token request
    carrying the code, the client credentials, the fixed redirect URI and
    grant type "authorization_code"; when the answer holds string access
    and refresh tokens it stores both, keeping the client id and secret,
    and leaves the client authenticated. *)
Theorem handle_callback_code_stores_tokens (code : string) (s : St) (r : Json)
  (rest : list Json) (at_ rt : string) :
  tokens s = r :: rest ->
  as_str (index r "access_token") = Some at_ ->
  as_str (index r "refresh_token") = Some rt ->
  exists s', handle_callback_code code s = Ret tt s' /\
    client s' = {| client_id := client_id (client s);
                   client_secret := client_secret (client s);
                   access_token := Some at_; refresh_token := Some rt |} /\
    is_authenticated (client s') = true /\
    api s' = api s /\ tokens s' = rest /\
    sent s' = sent s ++ [TokenPost [("code", code); ("client_id", client_id (client s));
                                    ("client_secret", client_secret (client s));
                                    ("redirect_uri", "http://127.0.0.1:8080");
                                    ("grant_type", "authorization_code")]].
Proof.
  intros Ht Ha Hr. unfold handle_callback_code. simpl. rewrite Ht, Ha, Hr.
  eexists. split; [reflexivity |]. simpl. repeat split; reflexivity.
Qed.

Lemma handle_callback_code_stores_tokens_witness :
  exists s', handle_callback_code "xyz"
               (start [] [JObj [("access_token", JStr "a1"); ("refresh_token", JStr "r1")]])
             = Ret tt s' /\
    client s' = {| client_id := "cid"; client_secret := "csecret";
                   access_token := Some "a1"; refresh_token := Some "r1" |} /\
    is_authenticated (client s') = true /\
    api s' = [] /\ tokens s' = [] /\
    sent s' = [] ++ [TokenPost [("code", "xyz"); ("client_id", "cid");
                                ("client_secret", "csecret");
                                ("redirect_uri", "http://127.0.0.1:8080");
                                ("grant_type", "authorization_code")]].
Proof.
  exact (handle_callback_code_stores_tokens "xyz"
           (start [] [JObj [("access_token", JStr "a1"); ("refresh_token", JStr "r1")]])
           (JObj [("access_token", JStr "a1"); ("refresh_token", JStr "r1")]) [] "a1" "r1"
           eq_refl eq_refl eq_refl).
Defined.

(** A token-exchange answer without a string refresh token makes
    [handle_callback_url] panic, even when the client already holds a
    refresh token. *)
Theorem handle_callback_code_requires_refresh_token (code : string) (s : St) (r : Json)
  (rest : list Json) :
  tokens s = r :: rest ->
  as_str (index r "refresh_token") = None ->
  exists s', handle_callback_code code s = Panic s'.
Proof.
  intros Ht Hr. unfold handle_callback_code. simpl. rewrite Ht.
  destruct (as_str (index r "access_token")); [rewrite Hr |]; eexists; reflexivity.
Qed.

Lemma handle_callback_code_requires_refresh_token_witness :
  exists s', handle_callback_code "xyz" (start [] [token_answer "a1"]) = Panic s'.
Proof.
  exact (handle_callback_code_requires_refresh_token "xyz" (start [] [token_answer "a1"])
           (token_answer "a1") [] eq_refl eq_refl).
Defined.

(** ** MailClient::fetch_mail_details and the Backfill command *)

Lemma details_loop_in_order (D : Type) (ap : string -> option MailAddrList)
  (tm : Z -> option D) (listing : list MinimalMessage) (labels : gmap string string)
  (results : list (UsableMessageDetails D)) (js rest : list Json) (s : St) (tok : string)
  (uss : list (list (UsableMessageDetails D))) :
  access_token (client s) = Some tok ->
  api s = js ++ rest ->
  length js = length listing ->
  Forall (fun j => needs_refresh j = false) js ->
  traverse (enrich_one D ap tm labels) js = Some uss ->
  exists s', details_loop D ap tm listing labels results s = Ret (results ++ concat uss) s' /\
    client s' = client s /\ api s' = rest /\ tokens s' = tokens s /\
    counters s' = counters s /\
    sent s' = sent s ++ map (fun m => ApiGet (message_url (mm_id m)) tok) listing.
Proof.
  revert results js s uss.
  induction listing as [| m ms IH]; intros results js s uss Htok Hapi Hlen Hnr Htr.
  - destruct js; [| discriminate]. injection Htr as <-. simpl in Hapi.
    exists s. cbn [details_loop concat map]. unfold retM. rewrite !app_nil_r.
    repeat split; auto.
  - destruct js as [| j js]; [discriminate |]. simpl in Hapi, Hlen.
    inversion Hnr as [| ? ? Hj Hnr']; subst.
    simpl in Htr. destruct (enrich_one D ap tm labels j) as [us |] eqn:Ee; [| discriminate].
    destruct (traverse (enrich_one D ap tm labels) js) as [uss' |] eqn:Et; [| discriminate].
    injection Htr as <-.
    simpl details_loop. unfold bindM at 1.
    rewrite (auth_get_accepted _ _ _ _ tok Htok Hapi Hj).
    set (s1 := set_api (js ++ rest) _).
    unfold enrich_one in Ee.
    destruct (is_not_found j).
    + injection Ee as <-.
      destruct (IH results js s1 uss') as (s' & Hrun & Hc & Ha & Hk & Hcn & Hs);
        auto.
      exists s'. rewrite Hrun. repeat split; auto. rewrite Hs. simpl.
      rewrite <- app_assoc. reflexivity.
    + destruct (de_MessageDetails j) as [md |] eqn:Emd; [| discriminate].
      destruct (usable_from D ap tm md labels) as [u |] eqn:Eu; [| discriminate].
      injection Ee as <-. unfold bindM, unwrapM. try rewrite Emd; rewrite Eu.
      destruct (IH (results ++ [u]) js s1 uss') as (s' & Hrun & Hc & Ha & Hk & Hcn & Hs);
        auto.
      exists s'. rewrite Hrun. rewrite <- app_assoc. repeat split; auto.
      rewrite Hs. simpl. rewrite <- app_assoc. reflexivity.
Qed.

(** When each reference of the listing gets one accepted answer,
    [fetch_mail_details] requests the references in listing order, one
    request each, and returns the enriched events in that same order,
    not-found answers contributing nothing; no counter is touched. *)
Theorem fetch_mail_details_in_listing_order (D : Type) (ap : string -> option MailAddrList)
  (tm : Z -> option D) (listing : list MinimalMessage) (labels : gmap string string)
  (js rest : list Json) (s : St) (tok : string) (uss : list (list (UsableMessageDetails D))) :
  access_token (client s) = Some tok ->
  api s = js ++ rest ->
  length js = length listing ->
  Forall (fun j => needs_refresh j = false) js ->
  traverse (enrich_one D ap tm labels) js = Some uss ->
  exists s', fetch_mail_details D ap tm listing labels s = Ret (concat uss) s' /\
    api s' = rest /\ counters s' = counters s /\
    sent s' = sent s ++ map (fun m => ApiGet (message_url (mm_id m)) tok) listing.
Proof.
  intros Htok Hapi Hlen Hnr Htr. unfold fetch_mail_details.
  destruct (details_loop_in_order D ap tm listing labels [] js rest s tok uss)
    as (s' & Hrun & _ & Ha & _ & Hc & Hs); auto.
  exists s'. auto.
Qed.

Lemma fetch_mail_details_in_listing_order_witness :
  exists s', fetch_mail_details Z addrparse_bare millis_in_range
               [ref "m1"; ref "m2"; ref "m3"] catalog
               (start [enc_MessageDetails (detail "m1" "150" "1700000000000" "a@x.org" "b@y.org" []);
                       error_envelope 404; enc_MessageDetails md7] []) =
             Ret (concat [[{| u_id := "m1"; u_thread_id := "t1"; u_history_id := "150";
                              u_labels := []; u_internal_date := 1700000000000%Z;
                              u_from := [Single {| display_name := None; addr := "a@x.org" |}];
                              u_to := [Single {| display_name := None; addr := "b@y.org" |}];
                              u_subject := "hi" |}]; []; [u7]]) s' /\
    api s' = [] /\ counters s' = [] /\
    sent s' = [] ++ map (fun m => ApiGet (message_url (mm_id m)) "a0")
                        [ref "m1"; ref "m2"; ref "m3"].
Proof.
  refine (fetch_mail_details_in_listing_order Z addrparse_bare millis_in_range
           [ref "m1"; ref "m2"; ref "m3"] catalog
           [enc_MessageDetails (detail "m1" "150" "1700000000000" "a@x.org" "b@y.org" []);
            error_envelope 404; enc_MessageDetails md7] []
           (start [enc_MessageDetails (detail "m1" "150" "1700000000000" "a@x.org" "b@y.org" []);
                   error_envelope 404; enc_MessageDetails md7] [])
           "a0" _ eq_refl eq_refl eq_refl
           _ eq_refl).
  repeat constructor.
Defined.

(** The Backfill command, its three calls each answered once: it loads the
    labels, lists the first page of messages, requests the details of each
    listed message in order, and prints the history id of the first
    enriched message (nothing when there is none); it increments no
    counter. *)
Theorem backfill_reports_first_enriched (D : Type) (ap : string -> option MailAddrList)
  (tm : Z -> option D) (s : St) (tok : string) (jl jm : Json) (js rest ls : list Json)
  (m : gmap string string) (ml : MessagesList) (uss : list (list (UsableMessageDetails D))) :
  access_token (client s) = Some tok ->
  api s = jl :: jm :: js ++ rest ->
  needs_refresh jl = false ->
  needs_refresh jm = false ->
  as_array (index jl "labels") = Some ls ->
  insert_labels ls ∅ = Some m ->
  de_MessagesList jm = Some ml ->
  length js = length (ml_messages ml) ->
  Forall (fun j => needs_refresh j = false) js ->
  traverse (enrich_one D ap tm m) js = Some uss ->
  exists s', backfill D ap tm s = Ret (option_map (u_history_id D) (hd_error (concat uss))) s' /\
    api s' = rest /\ counters s' = counters s /\
    sent s' = sent s ++ [ApiGet labels_url tok; ApiGet messages_url tok] ++
              map (fun x => ApiGet (message_url (mm_id x)) tok) (ml_messages ml).
Proof.
  intros Htok Hapi Hjl Hjm Hls Hins Hml Hlen Hnr Htr.
  unfold backfill, load_labels, fetch_mail, fetch_mail_details, bindM.
  rewrite (auth_get_accepted labels_url jl (jm :: js ++ rest) s tok Htok Hapi Hjl).
  unfold unwrapM. rewrite Hls, Hins.
  set (s1 := set_api (jm :: js ++ rest) (log_sent (ApiGet labels_url tok) s)).
  rewrite (auth_get_accepted messages_url jm (js ++ rest) s1 tok Htok eq_refl Hjm).
  rewrite Hml.
  set (s2 := set_api (js ++ rest) (log_sent (ApiGet messages_url tok) s1)).
  destruct (details_loop_in_order D ap tm (ml_messages ml) m [] js rest s2 tok uss)
    as (s' & Hrun & _ & Ha & _ & Hc & Hs); auto.
  change (retM (ml_messages ml) s2) with (Ret (ml_messages ml) s2). cbv beta iota.
  rewrite Hrun. exists s'. unfold retM. repeat split; auto.
  rewrite Hs. unfold s2, s1. simpl. rewrite <- !app_assoc. reflexivity.
Qed.

Lemma backfill_reports_first_enriched_witness :
  exists s', backfill Z addrparse_bare millis_in_range
               (start [labels_page; messages_page; error_envelope 404;
                       enc_MessageDetails md7] []) =
             Ret (option_map (u_history_id Z) (hd_error (concat [[]; [u7]]))) s' /\
    api s' = [] /\ counters s' = [] /\
    sent s' = [] ++ [ApiGet labels_url "a0"; ApiGet messages_url "a0"] ++
              map (fun x => ApiGet (message_url (mm_id x)) "a0") [ref "m1"; ref "m2"].
Proof.
  refine (backfill_reports_first_enriched Z addrparse_bare millis_in_range
            (start [labels_page; messages_page; error_envelope 404;
                    enc_MessageDetails md7] [])
            "a0" labels_page messages_page [error_envelope 404; enc_MessageDetails md7] []
            _ (<["L1" := "Work2"]> (<["INBOX" := "Inbox"]> (<["L1" := "Work"]> ∅)))
            {| ml_messages := [ref "m1"; ref "m2"]; ml_next_page_token := Some "p2";
               ml_result_size_estimate := 201 |}
            [[]; [u7]] eq_refl eq_refl eq_refl eq_refl eq_refl eq_refl eq_refl eq_refl
            _ _).
  - repeat constructor.
  - vm_compute. reflexivity.
Defined.

(** ** MailClient::fetch_history and the watch cycle *)




(** A watch cycle whose history pages add no message keeps the watermark
    it started from, even when the pages report a newer historyId; it sends
    only the history requests and increments no counter. *)
Theorem watch_cycle_no_new_mail (D : Type) (ap : string -> option MailAddrList)
  (tm : Z -> option D) (labels : gmap string string) (W : string)
  (pages : list HistoryResponse) (rest : list Json) (s : St) (tok : string) :
  access_token (client s) = Some tok ->
  chained pages = true ->
  api s = map enc_HistoryResponse pages ++ rest ->
  concat (map history_refs pages) = [] ->
  exists s', watch_cycle D ap tm labels W s = Ret W s' /\
    api s' = rest /\ counters s' = counters s /\
    sent s' = sent s ++ map (fun pt => ApiGet (history_url W pt) tok) (page_tokens pages).
Proof.
  intros Htok Hch Hapi Hnone.
  destruct (history_loop_pages (S (length (api s))) W None [] pages rest s tok)
    as (s1 & Hrun & _ & Ha & _ & Hs); auto.
  - rewrite Hapi, length_app, length_map. lia.
  - pose proof (keeps_counters_history_loop (S (length (api s))) W None [] s) as K.
    unfold watch_cycle, bindM, fetch_history. rewrite Hrun. rewrite Hrun in K.
    simpl in Hrun, K. rewrite Hnone.
    exists s1. unfold fetch_mail_details, retM. simpl. repeat split; auto.
Qed.

Lemma watch_cycle_no_new_mail_witness :
  exists s', watch_cycle Z addrparse_bare millis_in_range catalog "500"
               (start [enc_HistoryResponse (empty_page "900")] []) = Ret "500" s' /\
    api s' = [] /\ counters s' = [] /\
    sent s' = [] ++ map (fun pt => ApiGet (history_url "500" pt) "a0")
                        (page_tokens [empty_page "900"]).
Proof.
  exact (watch_cycle_no_new_mail Z addrparse_bare millis_in_range catalog "500"
           [empty_page "900"] [] (start [enc_HistoryResponse (empty_page "900")] []) "a0"
           eq_refl eq_refl eq_refl eq_refl).
Defined.
